(** * A static Huffman text codec (src/main.py): model and verification

    The development embeds the codec of [src/main.py] (frequency analysis,
    heap-driven tree construction, code derivation, bit packing and greedy
    decoding) and settles the properties stated about it.

    - Python [str] values are lists of characters ([list ascii]); the bit
      strings the codec manipulates are Python strings over the characters
      "0" and "1", and they stay so here.
    - Python [int] values that are lengths or counts are [nat]; the integers
      formatted to and parsed from binary are [N].
    - [bytearray] and file contents are [list byte].
    - The dictionaries [self.codes] and [self.reverse_codes] are finite maps.
      The frequency dictionary is iterated ([freq_dict.items()]), so it is an
      association list in insertion order.
    - A raised exception is [inl e]; a returned value is [inr v].
    - File access ([open], [read], [write], [print]) is the boundary: [compress]
      takes the text that was read and yields the bytes that are written. *)

From Stdlib Require Import NArith ZArith Lia Zify ZifyNat.
From Stdlib.Strings Require Import Ascii Byte.
From stdpp Require Import base numbers list gmap strings.

Local Open Scope char_scope.

Abbreviation str := (list ascii).

(** ** Exceptions

    [IndexError], [KeyError] and [ValueError] are the built-in exceptions the
    code can raise.  [EmptyInputError], [MalformedStreamError] and
    [UnknownSymbolError] are the error kinds the specification names; no
    definition below raises them.  [OutOfFuel] marks a loop that was given too
    few iterations; the entry points below always give enough. *)
Inductive exn :=
  | IndexError | KeyError | ValueError
  | EmptyInputError | MalformedStreamError | UnknownSymbolError
  | OutOfFuel.

Abbreviation result := (sum exn).

#[global] Instance result_ret : MRet result := λ A x, inr x.
#[global] Instance result_bind : MBind result := λ A B f m,
  match m with inl e => inl e | inr x => f x end.

Definition raise {A} (e : exn) : result A := inl e.

(** [l[i]] and [l[i] = x] on a Python list, for a non-negative index. *)
Definition getitem {A} (l : list A) (i : nat) : result A :=
  match l !! i with Some x => mret x | None => raise IndexError end.

Definition setitem {A} (l : list A) (i : nat) (x : A) : result (list A) :=
  if bool_decide (i < length l) then mret (<[i:=x]> l) else raise IndexError.

(** ** class BinaryTreeNode *)
#[warnings="-register-all"]
Inductive BinaryTreeNode := Node {
  value : option ascii;
  freq : nat;
  left : option BinaryTreeNode;
  right : option BinaryTreeNode }.

(** [BinaryTreeNode.__init__(value, freq)]. *)
Definition new_node (v : option ascii) (f : nat) : BinaryTreeNode :=
  Node v f None None.

(** [BinaryTreeNode.__lt__]: frequency is the only key. *)
Definition node_lt (self other : BinaryTreeNode) : bool :=
  bool_decide (freq self < freq other).

(** [BinaryTreeNode.__eq__]. *)
Definition node_eq (self other : BinaryTreeNode) : bool :=
  bool_decide (freq self = freq other).

(** ** The [heapq] module (CPython's Lib/heapq.py), on [BinaryTreeNode]s

    [heapq] compares items with [<] only, which is [node_lt] here. *)
Module heapq.

(** The [while pos > startpos] loop of [_siftdown]; [newitem] is held aside
    and written when the loop ends. *)
Fixpoint _siftdown_loop (fuel : nat) (heap : list BinaryTreeNode)
    (startpos pos : nat) (newitem : BinaryTreeNode)
    : result (list BinaryTreeNode) :=
  if bool_decide (startpos < pos) then
    match fuel with
    | 0 => raise OutOfFuel
    | S fuel =>
        let parentpos := (pos - 1) `div` 2 in
        parent ← getitem heap parentpos;
        if node_lt newitem parent then
          heap ← setitem heap pos parent;
          _siftdown_loop fuel heap startpos parentpos newitem
        else setitem heap pos newitem
    end
  else setitem heap pos newitem.

Definition _siftdown (heap : list BinaryTreeNode) (startpos pos : nat)
    : result (list BinaryTreeNode) :=
  newitem ← getitem heap pos;
  _siftdown_loop pos heap startpos pos newitem.

(** The [while childpos < endpos] loop of [_siftup]: the smaller child is
    moved up until a leaf position is reached; yields the heap and that
    position. *)
Fixpoint _siftup_loop (fuel : nat) (heap : list BinaryTreeNode)
    (endpos pos childpos : nat) : result (list BinaryTreeNode * nat) :=
  if bool_decide (childpos < endpos) then
    match fuel with
    | 0 => raise OutOfFuel
    | S fuel =>
        let rightpos := childpos + 1 in
        childpos ←
          (if bool_decide (rightpos < endpos) then
             c ← getitem heap childpos;
             r ← getitem heap rightpos;
             mret (if negb (node_lt c r) then rightpos else childpos)
           else mret childpos);
        child ← getitem heap childpos;
        heap ← setitem heap pos child;
        _siftup_loop fuel heap endpos childpos (2 * childpos + 1)
    end
  else mret (heap, pos).

Definition _siftup (heap : list BinaryTreeNode) (pos : nat)
    : result (list BinaryTreeNode) :=
  let endpos := length heap in
  let startpos := pos in
  newitem ← getitem heap pos;
  '(heap, pos) ← _siftup_loop endpos heap endpos pos (2 * pos + 1);
  heap ← setitem heap pos newitem;
  _siftdown heap startpos pos.

Definition heappush (heap : list BinaryTreeNode) (item : BinaryTreeNode)
    : result (list BinaryTreeNode) :=
  let heap := heap ++ [item] in
  _siftdown heap 0 (length heap - 1).

(** [heappop] yields the popped item and the heap that is left. *)
Definition heappop (heap : list BinaryTreeNode)
    : result (BinaryTreeNode * list BinaryTreeNode) :=
  match last heap with
  | None => raise IndexError
  | Some lastelt =>
      let heap := removelast heap in
      match heap with
      | [] => mret (lastelt, heap)
      | returnitem :: _ =>
          heap ← setitem heap 0 lastelt;
          heap ← _siftup heap 0;
          mret (returnitem, heap)
      end
  end.

End heapq.

(** ** class FileCompression

    The instance state is the two dictionaries; [self.path] only names the
    files and plays no part in the codec. *)
Record FileCompression := {
  codes : gmap ascii str;
  reverse_codes : gmap str ascii }.

(** [FileCompression.__init__]. *)
Definition FileCompression_init : FileCompression :=
  {| codes := ∅; reverse_codes := ∅ |}.

(** [set(text)] holds every distinct character of [text] once.  Python does
    not fix the order in which a set is iterated (for strings it follows
    their hashes, which change from one interpreter run to the next), so an
    iteration order is any duplicate-free list of the characters of [text];
    the functions that iterate the set take that list as an argument. *)
Definition set_iteration (text : str) (chars : list ascii) : Prop :=
  NoDup chars ∧ ∀ c, c ∈ chars ↔ c ∈ text.

(** [text.count(char)]. *)
Definition count (text : str) (char : ascii) : nat :=
  length (filter (λ c, c = char) text).

Definition _build_frequency_dict (text : str) (set_text : list ascii)
    : list (ascii * nat) :=
  (λ char, (char, count text char)) <$> set_text.

(** The [for value, freq in freq_dict.items()] loop of [_build_heap]. *)
Fixpoint _build_heap_loop (heap : list BinaryTreeNode)
    (items : list (ascii * nat)) : result (list BinaryTreeNode) :=
  match items with
  | [] => mret heap
  | (value, freq) :: items =>
      let node := new_node (Some value) freq in
      heap ← heapq.heappush heap node;
      _build_heap_loop heap items
  end.

Definition _build_heap (freq_dict : list (ascii * nat))
    : result (list BinaryTreeNode) :=
  _build_heap_loop [] freq_dict.

(** The [while len(heap) > 1] loop of [_build_huffman_tree]. *)
Fixpoint _build_huffman_tree_loop (fuel : nat) (heap : list BinaryTreeNode)
    : result (list BinaryTreeNode) :=
  if bool_decide (1 < length heap) then
    match fuel with
    | 0 => raise OutOfFuel
    | S fuel =>
        '(l, heap) ← heapq.heappop heap;
        '(r, heap) ← heapq.heappop heap;
        let merged := Node None (freq l + freq r) (Some l) (Some r) in
        heap ← heapq.heappush heap merged;
        _build_huffman_tree_loop fuel heap
    end
  else mret heap.

Definition _build_huffman_tree (heap : list BinaryTreeNode)
    : result BinaryTreeNode :=
  heap ← _build_huffman_tree_loop (length heap) heap;
  getitem heap 0.

(** [_generate_codes] on a node object. *)
Fixpoint generate_codes_node (self : FileCompression) (node : BinaryTreeNode)
    (code : str) : FileCompression :=
  match node with
  | Node value _ left right =>
      let self :=
        match value with
        | Some v => {| codes := <[v := code]> (codes self);
                       reverse_codes := <[code := v]> (reverse_codes self) |}
        | None => self
        end in
      let self :=
        match left with
        | Some l => generate_codes_node self l (code ++ ["0"])
        | None => self
        end in
      match right with
      | Some r => generate_codes_node self r (code ++ ["1"])
      | None => self
      end
  end.

(** [_generate_codes(node, code)], where [node] may be [None]. *)
Definition _generate_codes (self : FileCompression)
    (node : option BinaryTreeNode) (code : str) : FileCompression :=
  match node with
  | None => self
  | Some n => generate_codes_node self n code
  end.

(** [''.join(self.codes[char] for char in text)]. *)
Fixpoint _encode_text (self : FileCompression) (text : str) : result str :=
  match text with
  | [] => mret []
  | char :: text =>
      code ← match codes self !! char with
             | Some code => mret code
             | None => raise KeyError
             end;
      rest ← _encode_text self text;
      mret (code ++ rest)
  end.

(** ** Binary formatting and parsing *)

(** The binary digits of a positive number, most significant first. *)
Fixpoint bin_pos (p : positive) : str :=
  match p with
  | xH => ["1"]
  | xO p => bin_pos p ++ ["0"]
  | xI p => bin_pos p ++ ["1"]
  end.

(** [f"{n:b}"] for [n >= 0]. *)
Definition bin (n : N) : str :=
  match n with
  | N0 => ["0"]
  | Npos p => bin_pos p
  end.

(** [f"{n:08b}"]: zero-filled on the left to a width of at least 8. *)
Definition format_08b (n : N) : str :=
  let digits := bin n in
  replicate (8 - length digits) "0" ++ digits.

Definition digit2 (c : ascii) : result N :=
  if decide (c = "0") then mret 0%N
  else if decide (c = "1") then mret 1%N
  else raise ValueError.

(** [int(s, 2)] on the strings the codec passes to it: strings of binary
    digits and the empty string.  (Python also admits a sign, a [0b] prefix,
    underscores and surrounding blanks; the codec never builds such a
    string, and here they are a [ValueError].) *)
Definition int2 (s : str) : result N :=
  match s with
  | [] => raise ValueError
  | _ => foldl (λ acc c, n ← acc; d ← digit2 c; mret (2 * n + d)%N) (mret 0%N) s
  end.

(** [s[i:j]] for non-negative [i] and [j]: out-of-range bounds are clamped. *)
Definition slice {A} (s : list A) (i j : nat) : list A :=
  take (j - i) (drop i s).

(** [range(0, stop, step)]. *)
Definition range_step (stop step : nat) : list nat :=
  (λ k, k * step) <$> seq 0 ((stop + step - 1) `div` step).

Definition _add_padding (encoded_text : str) : str :=
  let padding := 8 - length encoded_text `mod` 8 in
  format_08b (N.of_nat padding) ++ encoded_text ++ replicate padding "0".

(** [bytearray(...)] of the 8-character slices; [bytearray] refuses an
    integer outside [range(256)]. *)
Definition _convert_to_bytes (padded_encoded_text : str) : result (list byte) :=
  mapM (λ i,
          n ← int2 (slice padded_encoded_text i (i + 8));
          match Byte.of_N n with
          | Some b => mret b
          | None => raise ValueError
          end)
       (range_step (length padded_encoded_text) 8).

(** [compress], from the text read to the bytes written; [set_text] is the
    iteration order of [set(text)].  Yields the instance state too, since
    [_generate_codes] updates it. *)
Definition compress (self : FileCompression) (text : str)
    (set_text : list ascii) : result (FileCompression * list byte) :=
  let freq_dict := _build_frequency_dict text set_text in
  heap ← _build_heap freq_dict;
  root ← _build_huffman_tree heap;
  let self := _generate_codes self (Some root) [] in
  encoded_text ← _encode_text self text;
  let padded_encoded_text := _add_padding encoded_text in
  byte_data ← _convert_to_bytes padded_encoded_text;
  mret (self, byte_data).

(** [bit_string[8:-padding_size] if padding_size else bit_string[8:]]; the
    negative bound counts from the end, and a bound before the start is
    clamped to it. *)
Definition _remove_padding (bit_string : str) : result str :=
  let padding_info := take 8 bit_string in
  padding_size ← int2 padding_info;
  mret (if bool_decide (padding_size ≠ 0%N)
        then slice bit_string 8 (length bit_string - N.to_nat padding_size)
        else drop 8 bit_string).

(** One iteration of the [for bit in bit_string] loop of [_decode_text], on
    the pair of [current_code] and [decoded_text]. *)
Definition decode_step (self : FileCompression) (st : str * str) (bit : ascii)
    : str * str :=
  let '(current_code, decoded_text) := st in
  let current_code := current_code ++ [bit] in
  match reverse_codes self !! current_code with
  | Some v => ([], decoded_text ++ [v])
  | None => (current_code, decoded_text)
  end.

Definition _decode_text (self : FileCompression) (bit_string : str) : str :=
  (foldl (decode_step self) ([], []) bit_string).2.

(** The [while byte] loop of [decompress]: each byte read is appended as
    eight binary digits. *)
Definition read_bits (data : list byte) : str :=
  mjoin ((λ b, format_08b (Byte.to_N b)) <$> data).

(** [decompress], from the bytes read to the text written. *)
Definition decompress (self : FileCompression) (data : list byte) : result str :=
  let bit_string := read_bits data in
  bit_string ← _remove_padding bit_string;
  mret (_decode_text self bit_string).

(** [main], from the text of the file that is named to the text written to
    the [_decompressed.txt] file: a new instance compresses the file and
    then decompresses the bytes it wrote. *)
Definition main (text : str) (set_text : list ascii) : result str :=
  let file_compression := FileCompression_init in
  '(file_compression, byte_data) ← compress file_compression text set_text;
  decompress file_compression byte_data.

(** * Notions used in the statements *)

(** ** Heaps *)

(** The index [heapq] takes for the parent of [j]: [(j - 1) >> 1]. *)
Definition parent (j : nat) : nat := (j - 1) `div` 2.

(** The item at [i], if any, is not above the item at [j], if any. *)
Definition edge (h : list BinaryTreeNode) (i j : nat) : Prop :=
  ∀ x y, h !! i = Some x → h !! j = Some y → freq x ≤ freq y.

(** The invariant of [heapq]: no item is lighter than its parent. *)
Definition is_heap (h : list BinaryTreeNode) : Prop :=
  ∀ j, 0 < j → edge h (parent j) j.

(** ** Trees *)

(** The node [_build_huffman_tree] makes of two popped nodes. *)
Definition merged (l r : BinaryTreeNode) : BinaryTreeNode :=
  Node None (freq l + freq r) (Some l) (Some r).

(** A childless node that carries a character, or a node without character
    over two such trees whose frequency is the sum of theirs. *)
Inductive huffman_tree : BinaryTreeNode → Prop :=
  | huffman_leaf c f : huffman_tree (new_node (Some c) f)
  | huffman_merged l r :
      huffman_tree l → huffman_tree r → huffman_tree (merged l r).

(** The tree [compress] builds for a frequency dictionary. *)
Definition build_tree (freq_dict : list (ascii * nat)) : result BinaryTreeNode :=
  heap ← _build_heap freq_dict;
  _build_huffman_tree heap.

(** The characters of a tree with their frequencies, left to right. *)
Fixpoint symbol_freqs (node : BinaryTreeNode) : list (ascii * nat) :=
  match node with
  | Node value f left right =>
      match value with Some v => [(v, f)] | None => [] end
      ++ match left with Some l => symbol_freqs l | None => [] end
      ++ match right with Some r => symbol_freqs r | None => [] end
  end.

(** The (character, code) pairs that [_generate_codes(node, code)] records,
    in the order it records them. *)
Fixpoint code_list (node : BinaryTreeNode) (code : str) : list (ascii * str) :=
  match node with
  | Node value _ left right =>
      match value with Some v => [(v, code)] | None => [] end
      ++ match left with Some l => code_list l (code ++ ["0"]) | None => [] end
      ++ match right with Some r => code_list r (code ++ ["1"]) | None => [] end
  end.

(** Every node of a tree as (frequency, depth), the root at depth [d]. *)
Fixpoint nodes (t : BinaryTreeNode) (d : nat) : list (nat * nat) :=
  match t with
  | Node _ f left right =>
      (f, d)
      :: match left with Some l => nodes l (S d) | None => [] end
      ++ match right with Some r => nodes r (S d) | None => [] end
  end.

(** Every node with two children as (frequency of the left child, frequency
    of the right child, frequency of the node). *)
Fixpoint families (t : BinaryTreeNode) : list (nat * nat * nat) :=
  match t with
  | Node _ f left right =>
      match left, right with
      | Some l, Some r => [(freq l, freq r, f)]
      | _, _ => []
      end
      ++ match left with Some l => families l | None => [] end
      ++ match right with Some r => families r | None => [] end
  end.

(** A child of the first family lighter than a child of the second has the
    lighter parent. *)
Definition cross (g1 g2 : nat * nat * nat) : Prop :=
  let '(a1, b1, p1) := g1 in
  let '(a2, b2, p2) := g2 in
  a1 < a2 ∨ a1 < b2 ∨ b1 < a2 ∨ b1 < b2 → p1 < p2.

(** [R] relates any two entries at different places of the list, both ways. *)
Fixpoint pairwise {A} (R : A → A → Prop) (l : list A) : Prop :=
  match l with
  | [] => True
  | x :: l => Forall (λ y, R x y ∧ R y x) l ∧ pairwise R l
  end.

(** What holds of the forest in the heap throughout the merge loop. *)
Record forest_inv (F : list BinaryTreeNode) : Prop := {
  forest_trees : Forall huffman_tree F;
  (* a child is no heavier than any root *)
  forest_children : ∀ a b p t,
    (a, b, p) ∈ F ≫= families → t ∈ F → a ≤ freq t ∧ b ≤ freq t;
  forest_cross : pairwise cross (F ≫= families);
  (* a lighter node lies no higher in its tree than a heavier one in its *)
  forest_depths : ∀ w1 d1 w2 d2,
    (w1, d1) ∈ F ≫= (λ t, nodes t 0) →
    (w2, d2) ∈ F ≫= (λ t, nodes t 0) →
    w1 < w2 → d2 ≤ d1 }.

(** The shape of a tree: its nodes and their frequencies, without the
    characters. *)
Fixpoint shape (t : BinaryTreeNode) : BinaryTreeNode :=
  match t with
  | Node _ f left right =>
      Node None f
        match left with Some l => Some (shape l) | None => None end
        match right with Some r => Some (shape r) | None => None end
  end.

(** [f] under a returned value; an exception stays. *)
Definition rmap {A B} (f : A → B) (r : result A) : result B :=
  x ← r; mret (f x).

(** ** Dictionaries and bit strings *)

(** Writing a list of entries into a dictionary, first to last. *)
Definition record_all `{Countable K} {V} (m : gmap K V) (l : list (K * V))
    : gmap K V :=
  foldl (λ m e, <[e.1 := e.2]> m) m l.

(** A binary digit. *)
Definition is_bit (c : ascii) : Prop := c = "0" ∨ c = "1".

#[local] Instance is_bit_dec (c : ascii) : Decision (is_bit c).
Proof. unfold is_bit. apply _. Defined.

(** The number a string of binary digits denotes. *)
Definition bits_value (s : str) : N :=
  foldl (λ n c, (2 * n + (if decide (c = "1") then 1 else 0))%N) 0%N s.

(** The code [self.codes] gives a character. *)
Definition code_of (self : FileCompression) (c : ascii) : str :=
  default [] (codes self !! c).

(** What greedy matching needs of the dictionaries: the code of a character
    leads back to it and is not empty, and no key of [reverse_codes] is a
    proper prefix of the code of a character. *)
Record decodable (self : FileCompression) : Prop := {
  decodable_reverse : ∀ c code,
    codes self !! c = Some code →
    reverse_codes self !! code = Some c ∧ code ≠ [];
  decodable_prefix : ∀ c code p,
    codes self !! c = Some code → p `prefix_of` code →
    is_Some (reverse_codes self !! p) → p = code }.

(** ** Weighted depths *)

(** The nodes of a tree that carry a character as (frequency, depth), the
    root at depth [d]. *)
Fixpoint leaves (t : BinaryTreeNode) (d : nat) : list (nat * nat) :=
  match t with
  | Node value f left right =>
      match value with Some _ => [(f, d)] | None => [] end
      ++ match left with Some l => leaves l (S d) | None => [] end
      ++ match right with Some r => leaves r (S d) | None => [] end
  end.

(** Weight times depth, summed. *)
Definition cost (l : list (nat * nat)) : nat :=
  sum_list ((λ e, e.1 * e.2) <$> l).

(** The depths at which the leaves of a binary tree without single children
    lie, in any order: the root alone, or what comes of putting two leaves
    under a leaf. *)
Inductive tree_depths : list nat → Prop :=
  | depths_root : tree_depths [0]
  | depths_split d l : tree_depths (d :: l) → tree_depths (S d :: S d :: l)
  | depths_perm l l' : l ≡ₚ l' → tree_depths l → tree_depths l'.

(** No code of the list is a prefix of the code at another place. *)
Definition prefix_free (l : list (nat * str)) : Prop :=
  pairwise (λ e1 e2, ¬ e1.2 `prefix_of` e2.2) l.

(** ** A scenario: ["aaaabbbccd"], iterated as a, b, c, d *)

Definition scenario_text : str :=
  ["a"; "a"; "a"; "a"; "b"; "b"; "b"; "c"; "c"; "d"].

Definition scenario_set : list ascii := ["a"; "b"; "c"; "d"].

(** * Verification *)

(** [lia] is given the equations of Euclidean division, for the index
    arithmetic of the heap ([(pos - 1) >> 1]) and of the padding
    ([len % 8]). *)
Ltac Zify.zify_post_hook ::= Z.to_euclidean_division_equations.

#[local] Arguments Nat.div : simpl never.
#[local] Arguments Nat.modulo : simpl never.

(** Runs the binds of a computation whose first step has returned. *)
Ltac result_simpl := cbn [mbind mret result_bind result_ret raise].

(** ** List items *)

Lemma getitem_Some {A} (l : list A) i x : l !! i = Some x → getitem l i = inr x.
Proof. unfold getitem. by intros ->. Qed.

Lemma getitem_lt {A} (l : list A) i :
  i < length l → ∃ x, l !! i = Some x ∧ getitem l i = inr x.
Proof.
  intros Hi. destruct (lookup_lt_is_Some_2 l i Hi) as [x Hx].
  exists x. split; [done | by apply getitem_Some].
Qed.

Lemma setitem_lt {A} (l : list A) i x :
  i < length l → setitem l i x = inr (<[i:=x]> l).
Proof. intros Hi. unfold setitem. by rewrite bool_decide_eq_true_2. Qed.

Lemma insert_move {A} (l : list A) i j x y :
  l !! i = Some x → i ≠ j → j < length l →
  <[i:=y]> (<[j:=x]> l) ≡ₚ <[j:=y]> l.
Proof.
  intros Hi Hne Hj.
  rewrite <- (list_insert_insert_eq l j x y).
  apply Permutation_insert_swap.
  - by apply list_lookup_insert_eq.
  - by rewrite list_lookup_insert_ne.
Qed.

(** ** The heap invariant *)

Section heap.

Implicit Types (h : list BinaryTreeNode) (x y item newitem : BinaryTreeNode).
Implicit Types (i j pos : nat).

Lemma is_heap_nil : is_heap [].
Proof. intros j _ x y Hx. by rewrite lookup_nil in Hx. Qed.

Lemma is_heap_root h x y i :
  is_heap h → h !! 0 = Some x → h !! i = Some y → freq x ≤ freq y.
Proof.
  intros Hh Hx. revert y.
  induction (lt_wf i) as [i _ IH]. intros y Hy.
  destruct (decide (i = 0)) as [-> | Hi]; [by simplify_eq |].
  assert (Hp : parent i < i) by (unfold parent; lia).
  destruct (lookup_lt_is_Some_2 h (parent i)) as [z Hz].
  { apply lookup_lt_Some in Hy. lia. }
  transitivity (freq z); [by apply (IH (parent i)) |].
  apply (Hh i); [lia | done | done].
Qed.

(** Writing [newitem] at [pos] gives a heap when every edge away from [pos]
    holds and [newitem] fits between the parent and the children of [pos]. *)
Lemma place_is_heap h pos newitem :
  pos < length h →
  (∀ j, 0 < j → j ≠ pos → parent j ≠ pos → edge h (parent j) j) →
  (∀ j y, 0 < j → parent j = pos → h !! j = Some y → freq newitem ≤ freq y) →
  (∀ p, 0 < pos → h !! parent pos = Some p → freq p ≤ freq newitem) →
  is_heap (<[pos:=newitem]> h).
Proof.
  intros Hpos Ha Hb Hp j Hj x y Hx Hy.
  assert (parent j < j) by (unfold parent; lia).
  destruct (decide (j = pos)) as [-> | Hne].
  - rewrite list_lookup_insert_eq in Hy by done.
    rewrite list_lookup_insert_ne in Hx by lia.
    simplify_eq. by apply Hp.
  - rewrite list_lookup_insert_ne in Hy by done.
    destruct (decide (parent j = pos)) as [Heq | Hne'].
    + rewrite Heq, list_lookup_insert_eq in Hx by done.
      simplify_eq. by apply (Hb j).
    + rewrite list_lookup_insert_ne in Hx by done.
      by apply (Ha j).
Qed.

Lemma siftdown_loop_spec fuel : ∀ h pos newitem,
  pos ≤ fuel → pos < length h →
  (∀ j, 0 < j → j ≠ pos → parent j ≠ pos → edge h (parent j) j) →
  (∀ j y, 0 < j → parent j = pos → h !! j = Some y → freq newitem ≤ freq y) →
  (∀ j, 0 < pos → 0 < j → parent j = pos → edge h (parent pos) j) →
  ∃ h', heapq._siftdown_loop fuel h 0 pos newitem = inr h'
        ∧ is_heap h' ∧ h' ≡ₚ <[pos:=newitem]> h.
Proof.
  induction fuel as [| fuel IH]; intros h pos newitem Hfuel Hpos Ha Hb Hc.
  - assert (pos = 0) as -> by lia. simpl.
    rewrite setitem_lt by done. eexists. split; [done |]. split; [| done].
    apply place_is_heap; [done .. | lia].
  - simpl. case_bool_decide as Hp0.
    + fold (parent pos).
      assert (Hlt : parent pos < pos) by (unfold parent; lia).
      destruct (getitem_lt h (parent pos)) as (p & Hp & ->); [lia |]. simpl.
      unfold node_lt. case_bool_decide as Hcmp.
      * rewrite setitem_lt by done. simpl.
        destruct (IH (<[pos:=p]> h) (parent pos) newitem) as (h' & E & Hh & Hperm).
        -- lia.
        -- rewrite length_insert. lia.
        -- intros j Hj Hj1 Hj2 x y Hx Hy.
           destruct (decide (j = pos)) as [-> | Hjp]; [done |].
           rewrite list_lookup_insert_ne in Hy by done.
           destruct (decide (parent j = pos)) as [Hjq | Hjq].
           ++ rewrite Hjq, list_lookup_insert_eq in Hx by done. simplify_eq.
              by apply (Hc j).
           ++ rewrite list_lookup_insert_ne in Hx by done. by apply (Ha j).
        -- intros j y Hj Hj1 Hy.
           destruct (decide (j = pos)) as [-> | Hjp].
           ++ rewrite list_lookup_insert_eq in Hy by done. simplify_eq. lia.
           ++ rewrite list_lookup_insert_ne in Hy by done.
              assert (freq p ≤ freq y); [| lia].
              apply (Ha j); [done | done | lia | by rewrite Hj1 | done].
        -- intros j Hpp Hj Hj1 x y Hx Hy.
           assert (parent (parent pos) < parent pos) by (unfold parent in *; lia).
           rewrite list_lookup_insert_ne in Hx by lia.
           assert (Hxp : freq x ≤ freq p).
           { apply (Ha (parent pos)); [lia | lia | lia | done | done]. }
           destruct (decide (j = pos)) as [-> | Hjp].
           ++ rewrite list_lookup_insert_eq in Hy by done. by simplify_eq.
           ++ rewrite list_lookup_insert_ne in Hy by done.
              transitivity (freq p); [done |].
              apply (Ha j); [done | done | lia | by rewrite Hj1 | done].
        -- exists h'. split; [done |]. split; [done |].
           rewrite Hperm. apply insert_move; [done | lia | done].
      * rewrite setitem_lt by done. eexists. split; [done |]. split; [| done].
        apply place_is_heap; [done .. |].
        intros q _ Hq. simplify_eq. lia.
    + rewrite setitem_lt by done. eexists. split; [done |]. split; [| done].
      apply place_is_heap; [done .. | lia].
Qed.

Lemma siftdown_spec h pos :
  pos < length h →
  (∀ j, 0 < j → j ≠ pos → parent j ≠ pos → edge h (parent j) j) →
  (∀ j, 0 < j → parent j = pos → edge h pos j) →
  (∀ j, 0 < pos → 0 < j → parent j = pos → edge h (parent pos) j) →
  ∃ h', heapq._siftdown h 0 pos = inr h' ∧ is_heap h' ∧ h' ≡ₚ h.
Proof.
  intros Hpos Ha Hb Hc. unfold heapq._siftdown.
  destruct (getitem_lt h pos Hpos) as (x & Hx & ->). simpl.
  destruct (siftdown_loop_spec pos h pos x) as (h' & E & Hh & Hperm);
    [done | done | done | | done |].
  - intros j y Hj Hj1 Hy. by apply (Hb j).
  - exists h'. split; [done |]. split; [done |].
    by rewrite Hperm, list_insert_id.
Qed.

Lemma heappush_spec h item :
  is_heap h →
  ∃ h', heapq.heappush h item = inr h' ∧ is_heap h' ∧ h' ≡ₚ item :: h.
Proof.
  intros Hh. unfold heapq.heappush.
  assert (length (h ++ [item]) - 1 = length h) as ->
    by (rewrite length_app; simpl; lia).
  destruct (siftdown_spec (h ++ [item]) (length h)) as (h' & E & Hh' & Hperm).
  - rewrite length_app. simpl. lia.
  - intros j Hj Hj1 Hj2 x y Hx Hy.
    assert (j < length h).
    { apply lookup_lt_Some in Hy. rewrite length_app in Hy. simpl in Hy. lia. }
    assert (parent j < j) by (unfold parent; lia).
    rewrite lookup_app_l in Hx, Hy by lia. by apply (Hh j).
  - intros j Hj Hj1 x y _ Hy.
    apply lookup_lt_Some in Hy. rewrite length_app in Hy. simpl in Hy.
    unfold parent in Hj1. lia.
  - intros j _ Hj Hj1 x y _ Hy.
    apply lookup_lt_Some in Hy. rewrite length_app in Hy. simpl in Hy.
    unfold parent in Hj1. lia.
  - exists h'. split; [done |]. split; [done |].
    rewrite Hperm. by rewrite Permutation_app_comm.
Qed.

Lemma siftup_loop_spec fuel : ∀ h pos,
  length h ≤ fuel + (2 * pos + 1) → pos < length h →
  (∀ j, 0 < j → parent j ≠ pos → edge h (parent j) j) →
  (∀ j, 0 < pos → 0 < j → parent j = pos → edge h (parent pos) j) →
  ∃ h' pos',
    heapq._siftup_loop fuel h (length h) pos (2 * pos + 1) = inr (h', pos')
    ∧ length h' = length h ∧ pos' < length h ∧ length h ≤ 2 * pos' + 1
    ∧ (∀ j, 0 < j → parent j ≠ pos' → edge h' (parent j) j)
    ∧ (∀ x, <[pos':=x]> h' ≡ₚ <[pos:=x]> h).
Proof.
  induction fuel as [| fuel IH]; intros h pos Hfuel Hpos Ha Hc.
  - cbn [heapq._siftup_loop]. rewrite bool_decide_eq_false_2 by lia.
    exists h, pos. repeat split; [done | lia | done | done].
  - cbn [heapq._siftup_loop]. case_bool_decide as Hchild; cycle 1.
    { exists h, pos. repeat split; [done | lia | done | done]. }
    set (childpos := 2 * pos + 1) in *.
    assert (∃ c child,
      (if bool_decide (childpos + 1 < length h)
       then l ← getitem h childpos; r ← getitem h (childpos + 1);
            mret (if negb (node_lt l r) then childpos + 1 else childpos)
       else mret childpos) = inr c
      ∧ h !! c = Some child ∧ parent c = pos ∧ 0 < c
      ∧ ∀ j, 0 < j → parent j = pos → edge h c j)
      as (c & child & -> & Hcc & Hpc & Hc0 & Hmin).
    { destruct (getitem_lt h childpos Hchild) as (l & Hl & El).
      case_bool_decide as Hright.
      - destruct (getitem_lt h (childpos + 1) Hright) as (r & Hr & Er).
        rewrite El, Er. result_simpl. unfold node_lt.
        case_bool_decide as Hcmp; cbn [negb].
        + exists childpos, l. split; [done |].
          split; [done |]. split; [unfold parent; lia |]. split; [lia |].
          intros j Hj Hj1 x y Hx Hy.
          assert (j = childpos ∨ j = childpos + 1) as [-> | ->]
            by (unfold parent in Hj1; lia); simplify_eq; lia.
        + exists (childpos + 1), r. split; [done |].
          split; [done |]. split; [unfold parent; lia |]. split; [lia |].
          intros j Hj Hj1 x y Hx Hy.
          assert (j = childpos ∨ j = childpos + 1) as [-> | ->]
            by (unfold parent in Hj1; lia); simplify_eq; lia.
      - exists childpos, l. split; [done |].
        split; [done |]. split; [unfold parent; lia |]. split; [lia |].
        intros j Hj Hj1 x y Hx Hy.
        assert (j < length h) by by apply lookup_lt_Some in Hy.
        assert (j = childpos) as -> by (unfold parent in Hj1; lia).
        simplify_eq. lia. }
    result_simpl. rewrite (getitem_Some _ _ _ Hcc). result_simpl.
    rewrite setitem_lt by done. result_simpl.
    assert (Hcp : pos < c) by (unfold parent in Hpc; lia).
    assert (Hcl : c < length h) by by apply lookup_lt_Some in Hcc.
    rewrite <- (length_insert h pos child).
    destruct (IH (<[pos:=child]> h) c) as (h' & pos' & E & Hlen & Hpos' & Hleaf & Ha' & Hperm).
    + rewrite length_insert. lia.
    + by rewrite length_insert.
    + intros j Hj Hj1 x y Hx Hy.
      assert (parent j < j) by (unfold parent; lia).
      destruct (decide (j = pos)) as [-> | Hjp].
      * rewrite list_lookup_insert_eq in Hy by done.
        rewrite list_lookup_insert_ne in Hx by lia. simplify_eq.
        apply (Hc c); [lia | lia | done | done | done].
      * rewrite list_lookup_insert_ne in Hy by done.
        destruct (decide (parent j = pos)) as [Hjq | Hjq].
        -- rewrite Hjq, list_lookup_insert_eq in Hx by done. simplify_eq.
           by apply (Hmin j).
        -- rewrite list_lookup_insert_ne in Hx by done. by apply (Ha j).
    + intros j _ Hj Hj1 x y Hx Hy.
      rewrite Hpc, list_lookup_insert_eq in Hx by done.
      assert (c < j) by (unfold parent in Hj1; lia).
      rewrite list_lookup_insert_ne in Hy by lia.
      assert (x = child) as -> by congruence.
      apply (Ha j); [done | lia | by rewrite Hj1 | done].
    + rewrite length_insert in *.
      exists h', pos'. split; [done |]. repeat split; [done .. |].
      intros x. rewrite Hperm. apply insert_move; [done | lia | done].
Qed.

Lemma siftup_spec h :
  0 < length h →
  (∀ j, 0 < j → parent j ≠ 0 → edge h (parent j) j) →
  ∃ h', heapq._siftup h 0 = inr h' ∧ is_heap h' ∧ h' ≡ₚ h.
Proof.
  intros Hlen Ha. unfold heapq._siftup.
  destruct (getitem_lt h 0 Hlen) as (newitem & Hnew & ->). result_simpl.
  destruct (siftup_loop_spec (length h) h 0)
    as (h1 & pos & -> & Hlen1 & Hpos & Hleaf & Ha1 & Hperm);
    [lia | done | done | lia |].
  result_simpl. rewrite setitem_lt by lia. result_simpl.
  destruct (siftdown_spec (<[pos:=newitem]> h1) pos) as (h' & E & Hh' & Hperm').
  - rewrite length_insert. lia.
  - intros j Hj Hj1 Hj2 x y Hx Hy.
    rewrite list_lookup_insert_ne in Hx, Hy by done. by apply (Ha1 j).
  - intros j Hj Hj1 x y _ Hy. apply lookup_lt_Some in Hy.
    rewrite length_insert in Hy. unfold parent in Hj1. lia.
  - intros j _ Hj Hj1 x y _ Hy. apply lookup_lt_Some in Hy.
    rewrite length_insert in Hy. unfold parent in Hj1. lia.
  - exists h'. split; [done |]. split; [done |].
    rewrite Hperm', Hperm. by rewrite list_insert_id.
Qed.

(** [heappop] succeeds on a non-empty heap, yields an item of least
    frequency and leaves a heap of the other items. *)
Lemma heappop_spec h :
  is_heap h → h ≠ [] →
  ∃ x h', heapq.heappop h = inr (x, h') ∧ is_heap h' ∧ h ≡ₚ x :: h'
          ∧ ∀ y, y ∈ h → freq x ≤ freq y.
Proof.
  intros Hh Hne.
  assert (Hmin : ∀ x, h !! 0 = Some x → ∀ y, y ∈ h → freq x ≤ freq y).
  { intros x Hx y [i Hy]%list_elem_of_lookup. by apply (is_heap_root h x y i). }
  destruct h as [| z h0 _] using rev_ind; [done |].
  unfold heapq.heappop. rewrite last_snoc, removelast_last.
  destruct h0 as [| returnitem t].
  - exists z, []. split; [done |]. split; [apply is_heap_nil |].
    split; [done |]. by apply Hmin.
  - rewrite setitem_lt by (simpl; lia). result_simpl. cbn [list_insert insert].
    destruct (siftup_spec (z :: t)) as (h' & -> & Hh' & Hperm).
    + simpl. lia.
    + intros j Hj Hj1 x y Hx Hy.
      assert (parent j < j) by (unfold parent; lia).
      assert (j < length (z :: t)) by by apply lookup_lt_Some in Hy.
      destruct j as [| j]; [lia |].
      destruct (parent (S j)) as [| p] eqn:Hp; [done |].
      apply (Hh (S j)); [lia | |].
      * rewrite Hp. simpl in *. by apply lookup_app_l_Some.
      * simpl in *. by apply lookup_app_l_Some.
    + result_simpl. exists returnitem, h'. split; [done |]. split; [done |].
      split; [| by apply Hmin].
      rewrite Hperm. simpl. constructor. by rewrite Permutation_app_comm.
Qed.

End heap.

(** ** Tree construction *)

(** [_build_heap] succeeds: it yields a heap holding one childless node per
    entry of the frequency dictionary. *)
Lemma build_heap_loop_spec items : ∀ heap,
  is_heap heap →
  ∃ heap', _build_heap_loop heap items = inr heap' ∧ is_heap heap'
    ∧ heap' ≡ₚ ((λ e, new_node (Some e.1) e.2) <$> items) ++ heap.
Proof.
  induction items as [| [v f] items IH]; intros heap Hh.
  - exists heap. by repeat split.
  - cbn [_build_heap_loop].
    destruct (heappush_spec heap (new_node (Some v) f) Hh) as (h1 & -> & Hh1 & Hp1).
    result_simpl. destruct (IH h1 Hh1) as (h2 & -> & Hh2 & Hp2).
    exists h2. split; [done |]. split; [done |].
    rewrite Hp2, Hp1. simpl. by rewrite <- Permutation_middle.
Qed.

Lemma build_heap_spec freq_dict :
  ∃ heap, _build_heap freq_dict = inr heap ∧ is_heap heap
    ∧ heap ≡ₚ (λ e, new_node (Some e.1) e.2) <$> freq_dict.
Proof.
  destruct (build_heap_loop_spec freq_dict [] is_heap_nil) as (h & E & Hh & Hp).
  exists h. by rewrite app_nil_r in Hp.
Qed.

(** Induction over the merge loop: a property of the forest in the heap
    that does not depend on the order of the list and that is kept when the
    two nodes of least frequency are merged holds of the root alone at the
    end; and the loop does end, with a root. *)
Lemma build_huffman_tree_ind (P : list BinaryTreeNode → Prop) :
  (∀ F F', F ≡ₚ F' → P F → P F') →
  (∀ l r F,
     P (l :: r :: F) →
     (∀ y, y ∈ r :: F → freq l ≤ freq y) →
     (∀ y, y ∈ F → freq r ≤ freq y) →
     P (merged l r :: F)) →
  ∀ heap, is_heap heap → heap ≠ [] → P heap →
  ∃ root, _build_huffman_tree heap = inr root ∧ P [root].
Proof.
  intros Hperm Hstep heap Hh Hne HP. unfold _build_huffman_tree.
  assert (∃ root, _build_huffman_tree_loop (length heap) heap = inr [root]
                  ∧ P [root]) as (root & -> & HP').
  2: { by exists root. }
  assert (Hfuel : length heap ≤ length heap) by done.
  revert Hfuel. generalize (length heap) at 2 3 as fuel. intros fuel.
  revert heap Hh Hne HP.
  induction fuel as [| fuel IH]; intros heap Hh Hne HP Hfuel.
  { destruct heap; [done | simpl in Hfuel; lia]. }
  cbn [_build_huffman_tree_loop]. case_bool_decide as Hlen; cycle 1.
  { destruct heap as [| root [| ? ?]]; [done | | simpl in Hlen; lia].
    by exists root. }
  destruct (heappop_spec heap Hh Hne) as (l & h1 & -> & Hh1 & Hp1 & Hmin1).
  result_simpl.
  assert (Hlen1 : length heap = S (length h1)) by by rewrite Hp1.
  assert (Hne1 : h1 ≠ []) by (intros ->; simpl in Hlen1; lia).
  destruct (heappop_spec h1 Hh1 Hne1) as (r & h2 & -> & Hh2 & Hp2 & Hmin2).
  result_simpl.
  assert (Hlen2 : length h1 = S (length h2)) by by rewrite Hp2.
  fold (merged l r).
  destruct (heappush_spec h2 (merged l r) Hh2) as (h3 & -> & Hh3 & Hp3).
  result_simpl.
  apply IH; [done | | | ].
  - intros ->. by apply Permutation_nil_cons in Hp3.
  - apply (Hperm (merged l r :: h2)); [done |].
    apply Hstep.
    + apply (Hperm heap); [| done]. by rewrite Hp1, Hp2.
    + intros y Hy. apply Hmin1. rewrite Hp1, Hp2. by right.
    + intros y Hy. apply Hmin2. rewrite Hp2. by right.
  - rewrite Hp3. simpl. lia.
Qed.

(** ** The trees that are built *)

Lemma record_all_cons `{Countable K} {V} (m : gmap K V) k v l :
  record_all m ((k, v) :: l) = record_all (<[k := v]> m) l.
Proof. done. Qed.

Lemma record_all_app `{Countable K} {V} (m : gmap K V) l1 l2 :
  record_all m (l1 ++ l2) = record_all (record_all m l1) l2.
Proof. apply foldl_app. Qed.

Lemma lookup_record_all_notin `{Countable K} {V} (l : list (K * V)) : ∀ m k,
  k ∉ l.*1 → record_all m l !! k = m !! k.
Proof.
  induction l as [| [k' v'] l IH]; intros m k Hk; [done |].
  rewrite fmap_cons, not_elem_of_cons in Hk. destruct Hk as [Hk1 Hk2].
  rewrite record_all_cons.
  rewrite IH by done. by rewrite lookup_insert_ne.
Qed.

Lemma lookup_record_all_in `{Countable K} {V} (l : list (K * V)) : ∀ m k v,
  NoDup l.*1 → (k, v) ∈ l → record_all m l !! k = Some v.
Proof.
  induction l as [| [k' v'] l IH]; intros m k v Hnd Hin.
  { by apply elem_of_nil in Hin. }
  rewrite fmap_cons, NoDup_cons in Hnd. destruct Hnd as [Hk' Hnd].
  rewrite record_all_cons.
  apply elem_of_cons in Hin as [Heq | Hin].
  - simplify_eq. rewrite lookup_record_all_notin by done.
    apply lookup_insert_eq.
  - by apply IH.
Qed.

Lemma lookup_record_all_Some `{Countable K} {V} (l : list (K * V)) : ∀ m k v,
  record_all m l !! k = Some v → (k, v) ∈ l ∨ m !! k = Some v.
Proof.
  induction l as [| [k' v'] l IH]; intros m k v Hl; [by right |].
  rewrite record_all_cons in Hl.
  apply IH in Hl as [Hin | Hm].
  - left. by right.
  - destruct (decide (k' = k)) as [-> | Hne].
    + rewrite lookup_insert_eq in Hm. simplify_eq. left. by left.
    + rewrite lookup_insert_ne in Hm by done. by right.
Qed.

(** [_generate_codes] writes the entries of [code_list], each into both
    dictionaries. *)
Lemma generate_codes_node_spec t : huffman_tree t → ∀ self code,
  generate_codes_node self t code =
    {| codes := record_all (codes self) (code_list t code);
       reverse_codes :=
         record_all (reverse_codes self) (prod_swap <$> code_list t code) |}.
Proof.
  induction 1 as [c f | l r Hl IHl Hr IHr]; intros self code.
  - done.
  - cbn [merged generate_codes_node code_list]. rewrite IHl, IHr.
    cbn [codes reverse_codes]. rewrite app_nil_l, fmap_app, !record_all_app.
    by destruct self.
Qed.

(** ** Frequencies and depths in the forest *)

Lemma pairwise_Permutation {A} (R : A → A → Prop) l k :
  l ≡ₚ k → pairwise R l → pairwise R k.
Proof.
  induction 1 as [| x l k Hp IH | x y l | l k m _ IH1 _ IH2]; simpl.
  - done.
  - intros [Hx Hl]. split; [by rewrite <- Hp | by apply IH].
  - intros [Hy [Hx Hl]]. apply Forall_cons in Hy as [[Hyx Hxy] Hy].
    split; [| by split]. apply Forall_cons. by split.
  - auto.
Qed.

Lemma pairwise_app {A} (R : A → A → Prop) l k x y :
  pairwise R (l ++ k) → x ∈ l → y ∈ k → R x y ∧ R y x.
Proof.
  induction l as [| z l IH]; intros Hp Hx Hy; [by apply elem_of_nil in Hx |].
  destruct Hp as [Hz Hp]. apply elem_of_cons in Hx as [-> | Hx].
  - rewrite Forall_forall in Hz. apply Hz. apply elem_of_app. by right.
  - by apply IH.
Qed.

Lemma nodes_shift t : huffman_tree t → ∀ d w k,
  (w, k) ∈ nodes t (S d) ↔ ∃ k', k = S k' ∧ (w, k') ∈ nodes t d.
Proof.
  induction 1 as [c f | l r Hl IHl Hr IHr]; intros d w k; simpl.
  - setoid_rewrite list_elem_of_singleton. split.
    + intros [= -> ->]. by exists d.
    + by intros (k' & -> & [= -> ->]).
  - setoid_rewrite elem_of_cons. setoid_rewrite elem_of_app. split.
    + intros [[= -> ->] | [Hk | Hk]].
      * exists d. split; [done |]. by left.
      * apply IHl in Hk as (k' & -> & Hk).
        exists k'. split; [done |]. right. by left.
      * apply IHr in Hk as (k' & -> & Hk).
        exists k'. split; [done |]. right. by right.
    + intros (k' & -> & [[= -> ->] | [Hk | Hk]]).
      * by left.
      * right. left. apply IHl. by exists k'.
      * right. right. apply IHr. by exists k'.
Qed.

(** A node below the root is a child in some family, whose parent lies one
    level higher. *)
Lemma node_parent t : huffman_tree t → ∀ d w k,
  (w, k) ∈ nodes t d →
  (k = d ∧ w = freq t)
  ∨ ∃ a b p k', k = S k' ∧ (a, b, p) ∈ families t ∧ (w = a ∨ w = b)
                ∧ (p, k') ∈ nodes t d.
Proof.
  induction 1 as [c f | l r Hl IHl Hr IHr]; intros d w k; simpl.
  - rewrite list_elem_of_singleton. intros [= -> ->]. by left.
  - rewrite elem_of_cons, elem_of_app.
    intros [[= -> ->] | [Hk | Hk]]; [by left | |]; right.
    + apply IHl in Hk as [[-> ->] | (a & b & p & k' & -> & Hg & Hw & Hp)].
      * exists (freq l), (freq r), (freq l + freq r), d.
        split; [done |]. split; [by left |]. split; [by left |]. by left.
      * exists a, b, p, k'. split; [done |].
        split; [right; apply elem_of_app; by left |]. split; [done |].
        right. apply elem_of_app. by left.
    + apply IHr in Hk as [[-> ->] | (a & b & p & k' & -> & Hg & Hw & Hp)].
      * exists (freq l), (freq r), (freq l + freq r), d.
        split; [done |]. split; [by left |]. split; [by right |]. by left.
      * exists a, b, p, k'. split; [done |].
        split; [right; apply elem_of_app; by right |]. split; [done |].
        right. apply elem_of_app. by right.
Qed.

(** Between two trees whose families are [cross]-related, a lighter node at
    some depth of the first than a node at the same depth of the second
    makes the first root the lighter. *)
Lemma cross_trees_root t u :
  huffman_tree t → huffman_tree u →
  (∀ g1 g2, g1 ∈ families t → g2 ∈ families u → cross g1 g2) →
  ∀ k w1 w2, (w1, k) ∈ nodes t 0 → (w2, k) ∈ nodes u 0 → w1 < w2 →
  freq t < freq u.
Proof.
  intros Ht Hu Hcross k. induction k as [| k IH]; intros w1 w2 H1 H2 Hlt.
  - apply (node_parent t Ht) in H1 as [[_ ->] | (? & ? & ? & ? & ? & _)]; [| done].
    apply (node_parent u Hu) in H2 as [[_ ->] | (? & ? & ? & ? & ? & _)]; done.
  - apply (node_parent t Ht) in H1
      as [[? _] | (a1 & b1 & p1 & k1 & [= <-] & Hg1 & Hw1 & Hp1)]; [done |].
    apply (node_parent u Hu) in H2
      as [[? _] | (a2 & b2 & p2 & k2 & [= <-] & Hg2 & Hw2 & Hp2)]; [done |].
    apply (IH p1 p2); [done | done |].
    apply (Hcross _ _ Hg1 Hg2). lia.
Qed.

Lemma pairwise_app_r {A} (R : A → A → Prop) l k :
  pairwise R (l ++ k) → pairwise R k.
Proof. induction l as [| x l IH]; [done |]. intros [_ Hp]. by apply IH. Qed.

Lemma nodes_le_root t : huffman_tree t → ∀ d w k,
  (w, k) ∈ nodes t d → w ≤ freq t.
Proof.
  induction 1 as [c f | l r Hl IHl Hr IHr]; intros d w k; simpl.
  - rewrite list_elem_of_singleton. by intros [= -> ->].
  - rewrite elem_of_cons, elem_of_app.
    intros [[= -> ->] | [Hk | Hk]]; [done | |].
    + apply IHl in Hk. lia.
    + apply IHr in Hk. lia.
Qed.

Lemma families_sum t : huffman_tree t → ∀ a b p,
  (a, b, p) ∈ families t → p = a + b.
Proof.
  induction 1 as [c f | l r Hl IHl Hr IHr]; intros a b p; simpl.
  - by intros ?%elem_of_nil.
  - rewrite elem_of_cons, elem_of_app.
    intros [[= -> -> ->] | [Hg | Hg]]; [done | by apply IHl | by apply IHr].
Qed.

Lemma forest_inv_Permutation F F' : F ≡ₚ F' → forest_inv F → forest_inv F'.
Proof.
  intros Hp [H1 H2 H3 H4]. split.
  - by rewrite <- Hp.
  - intros a b p t. rewrite <- Hp. apply H2.
  - apply (pairwise_Permutation _ (F ≫= families)); [by rewrite Hp | done].
  - intros w1 d1 w2 d2. rewrite <- Hp. apply H4.
Qed.

Lemma forest_inv_leaves items :
  forest_inv ((λ e : ascii * nat, new_node (Some e.1) e.2) <$> items).
Proof.
  assert (Hfam : ((λ e : ascii * nat, new_node (Some e.1) e.2) <$> items)
                   ≫= families = []).
  { induction items as [| e items IH]; [done |]. by rewrite fmap_cons, bind_cons, IH. }
  split.
  - apply Forall_fmap, Forall_forall. intros e _. constructor.
  - rewrite Hfam. by intros a b p t ?%elem_of_nil.
  - by rewrite Hfam.
  - intros w1 d1 w2 d2 _ H2 _.
    apply list_elem_of_bind in H2 as (t & H2 & Ht).
    apply list_elem_of_fmap in Ht as (e & -> & _).
    simpl in H2. apply list_elem_of_singleton in H2. simplify_eq. lia.
Qed.

Lemma families_merged l r :
  families (merged l r)
  = (freq l, freq r, freq l + freq r) :: families l ++ families r.
Proof. done. Qed.

Lemma nodes_merged l r d :
  nodes (merged l r) d
  = (freq l + freq r, d) :: nodes l (S d) ++ nodes r (S d).
Proof. done. Qed.

(** Merging the two lightest roots keeps the invariant. *)
Lemma forest_inv_merge l r F :
  forest_inv (l :: r :: F) →
  (∀ y, y ∈ r :: F → freq l ≤ freq y) →
  (∀ y, y ∈ F → freq r ≤ freq y) →
  forest_inv (merged l r :: F).
Proof.
  intros [H1 H2 H3 H4] Hl Hr.
  apply Forall_cons in H1 as [Htl H1]. apply Forall_cons in H1 as [Htr HtF].
  rewrite !bind_cons in H3.
  repeat setoid_rewrite bind_cons in H2. repeat setoid_rewrite bind_cons in H4.
  assert (Hlr : freq l ≤ freq r) by (apply Hl; by left).
  assert (Hold : ∀ a b p,
    (a, b, p) ∈ families l ++ families r ++ F ≫= families →
    p = a + b ∧ a ≤ freq l ∧ b ≤ freq l
    ∧ ∀ t, t ∈ F → a ≤ freq t ∧ b ≤ freq t).
  { intros a b p Hg. split.
    - rewrite !elem_of_app in Hg. destruct Hg as [Hg | [Hg | Hg]];
        [by apply (families_sum l) | by apply (families_sum r) |].
      apply list_elem_of_bind in Hg as (t & Hg & Ht).
      rewrite Forall_forall in HtF. by apply (families_sum t); [apply HtF |].
    - destruct (H2 a b p l Hg) as [? ?]; [by left |].
      split; [done |]. split; [done |].
      intros t Ht. apply (H2 a b p t Hg). by right; right. }
  assert (Hnode : ∀ w d,
    (w, d) ∈ (merged l r :: F) ≫= (λ t, nodes t 0) →
    (w = freq l + freq r ∧ d = 0)
    ∨ (∃ k, d = S k ∧ ((w, k) ∈ nodes l 0 ∨ (w, k) ∈ nodes r 0))
    ∨ (w, d) ∈ F ≫= (λ t, nodes t 0)).
  { intros w d. rewrite bind_cons, nodes_merged.
    rewrite elem_of_app, elem_of_cons, elem_of_app.
    intros [[[= -> ->] | [Hn | Hn]] | Hn]; [by left | | | by right; right].
    - apply (nodes_shift l Htl) in Hn as (k & -> & Hn).
      right; left. exists k. split; [done |]. by left.
    - apply (nodes_shift r Htr) in Hn as (k & -> & Hn).
      right; left. exists k. split; [done |]. by right. }
  assert (Hin : ∀ w k, (w, k) ∈ nodes l 0 ∨ (w, k) ∈ nodes r 0 →
    (w, k) ∈ nodes l 0 ++ nodes r 0 ++ F ≫= (λ t, nodes t 0)).
  { intros w k. rewrite !elem_of_app. tauto. }
  assert (Hout : ∀ w k, (w, k) ∈ F ≫= (λ t, nodes t 0) →
    (w, k) ∈ nodes l 0 ++ nodes r 0 ++ F ≫= (λ t, nodes t 0)).
  { intros w k. rewrite !elem_of_app. tauto. }
  split.
  - constructor; [by constructor | done].
  - intros a b p t. rewrite bind_cons, families_merged.
    rewrite <- app_comm_cons, elem_of_cons, <- app_assoc.
    intros [[= -> -> ->] | Hg] Ht.
    + apply elem_of_cons in Ht as [-> | Ht]; [simpl; lia |].
      split; [apply Hl; by right | by apply Hr].
    + destruct (Hold a b p Hg) as (_ & ? & ? & HF).
      apply elem_of_cons in Ht as [-> | Ht]; [simpl; lia | by apply HF].
  - rewrite bind_cons, families_merged, <- app_comm_cons, <- app_assoc.
    split; [| done]. apply Forall_forall. intros [[a b] p] Hg.
    destruct (Hold a b p Hg) as (-> & ? & ? & _). simpl. lia.
  - intros w1 d1 w2 d2 Hn1 Hn2 Hlt.
    apply Hnode in Hn2 as [[-> ->] | [(k2 & -> & Hn2) | Hn2]]; [lia | |].
    + apply Hnode in Hn1 as [[-> ->] | [(k1 & -> & Hn1) | Hn1]].
      * destruct Hn2 as [Hn2 | Hn2].
        -- apply (nodes_le_root l Htl) in Hn2. lia.
        -- apply (nodes_le_root r Htr) in Hn2. lia.
      * assert (k2 ≤ k1); [| lia].
        apply (H4 w1 k1 w2 k2); [by apply Hin | by apply Hin | done].
      * assert (Hle : k2 ≤ d1)
          by (apply (H4 w1 d1 w2 k2); [by apply Hout | by apply Hin | done]).
        destruct (decide (k2 = d1)) as [-> | Hne]; [| lia].
        exfalso.
        apply list_elem_of_bind in Hn1 as (t & Hn1 & Ht).
        assert (Htt : huffman_tree t)
          by (rewrite Forall_forall in HtF; by apply HtF).
        assert (Hgt : ∀ g, g ∈ families t → g ∈ F ≫= families).
        { intros g Hg. apply list_elem_of_bind. by exists t. }
        destruct Hn2 as [Hn2 | Hn2].
        -- assert (freq l ≤ freq t) by (apply Hl; by right).
           assert (freq t < freq l); [| lia].
           apply (cross_trees_root t l Htt Htl) with d1 w1 w2; [| done ..].
           intros g1 g2 Hg1 Hg2.
           apply (pairwise_app cross _ _ g2 g1) in H3; [tauto | done |].
           apply elem_of_app. right. by apply Hgt.
        -- assert (freq t < freq r); [| specialize (Hr t Ht); lia].
           apply (cross_trees_root t r Htt Htr) with d1 w1 w2; [| done ..].
           intros g1 g2 Hg1 Hg2. apply pairwise_app_r in H3.
           apply (pairwise_app cross _ _ g2 g1) in H3; [tauto | done |].
           by apply Hgt.
    + apply Hnode in Hn1 as [[-> ->] | [(k1 & -> & Hn1) | Hn1]].
      * destruct d2 as [| k2]; [lia |]. exfalso.
        apply list_elem_of_bind in Hn2 as (t & Hn2 & Ht).
        assert (Htt : huffman_tree t)
          by (rewrite Forall_forall in HtF; by apply HtF).
        apply (node_parent t Htt) in Hn2
          as [[? _] | (a & b & p & k' & _ & Hg & Hw & _)]; [done |].
        destruct (Hold a b p) as (_ & ? & ? & _); [| lia].
        rewrite !elem_of_app. right; right. apply list_elem_of_bind. by exists t.
      * assert (d2 ≤ k1); [| lia].
        apply (H4 w1 k1 w2 d2); [by apply Hin | by apply Hout | done].
      * apply (H4 w1 d1 w2 d2); [by apply Hout | by apply Hout | done].
Qed.

Lemma symbol_freqs_leaves (items : list (ascii * nat)) :
  ((λ e, new_node (Some e.1) e.2) <$> items) ≫= symbol_freqs = items.
Proof.
  induction items as [| [c f] items IH]; [done |].
  rewrite fmap_cons, bind_cons, IH. done.
Qed.

(** [_build_heap] and [_build_huffman_tree] succeed on a dictionary with at
    least one entry; the root carries the characters and frequencies of the
    dictionary and satisfies the invariant of the forest. *)
Lemma build_tree_spec freq_dict :
  freq_dict ≠ [] →
  ∃ heap root,
    _build_heap freq_dict = inr heap ∧ _build_huffman_tree heap = inr root
    ∧ forest_inv [root] ∧ symbol_freqs root ≡ₚ freq_dict.
Proof.
  intros Hne. destruct (build_heap_spec freq_dict) as (heap & E & Hh & Hp).
  exists heap.
  destruct (build_huffman_tree_ind
    (λ F, forest_inv F ∧ F ≫= symbol_freqs ≡ₚ freq_dict)) with heap
    as (root & Er & Hinv & Hsym).
  - intros F F' HF [H1 H2]. split; [by apply (forest_inv_Permutation F) |].
    by rewrite <- HF.
  - intros l r F [H1 H2] Hl Hr. split; [by apply forest_inv_merge |].
    rewrite <- H2, !bind_cons. simpl. by rewrite <- app_assoc.
  - done.
  - intros ->. apply Permutation_nil in Hp. by destruct freq_dict.
  - split.
    + apply (forest_inv_Permutation _ _ (symmetry Hp)), forest_inv_leaves.
    + by rewrite Hp, symbol_freqs_leaves.
  - exists root. rewrite bind_singleton in Hsym. done.
Qed.

(** ** Codes as paths *)

Lemma code_list_symbols t : huffman_tree t → ∀ code,
  (code_list t code).*1 = (symbol_freqs t).*1.
Proof.
  induction 1 as [c f | l r Hl IHl Hr IHr]; intros code; [done |].
  simpl. by rewrite !fmap_app, IHl, IHr.
Qed.

(** A recorded code is the path to a node that carries the character, and
    its length is the depth of that node. *)
Lemma code_list_nodes t : huffman_tree t → ∀ code c code',
  (c, code') ∈ code_list t code →
  ∃ f, (c, f) ∈ symbol_freqs t ∧ (f, length code') ∈ nodes t (length code).
Proof.
  induction 1 as [c0 f0 | l r Hl IHl Hr IHr]; intros code c code'; simpl.
  - rewrite list_elem_of_singleton. intros [= -> ->].
    exists f0. split; by apply list_elem_of_singleton.
  - rewrite elem_of_app. intros [Hc | Hc].
    + apply IHl in Hc as (f & Hf & Hn). exists f.
      rewrite length_app, Nat.add_1_r in Hn.
      split; [apply elem_of_app; by left |].
      right. apply elem_of_app. by left.
    + apply IHr in Hc as (f & Hf & Hn). exists f.
      rewrite length_app, Nat.add_1_r in Hn.
      split; [apply elem_of_app; by right |].
      right. apply elem_of_app. by right.
Qed.

Lemma code_list_prefix t : huffman_tree t → ∀ code c code',
  (c, code') ∈ code_list t code → code `prefix_of` code'.
Proof.
  induction 1 as [c0 f0 | l r Hl IHl Hr IHr]; intros code c code'; simpl.
  - rewrite list_elem_of_singleton. by intros [= -> ->].
  - rewrite elem_of_app. intros [Hc | Hc].
    + apply IHl in Hc. etrans; [| done]. by apply prefix_app_r.
    + apply IHr in Hc. etrans; [| done]. by apply prefix_app_r.
Qed.

(** No recorded code is a prefix of the code of another entry. *)
Lemma code_list_prefix_free t : huffman_tree t → ∀ code e1 e2,
  e1 ∈ code_list t code → e2 ∈ code_list t code →
  e1.2 `prefix_of` e2.2 → e1 = e2.
Proof.
  induction 1 as [c0 f0 | l r Hl IHl Hr IHr]; intros code e1 e2; simpl.
  - rewrite !list_elem_of_singleton. by intros -> ->.
  - rewrite !elem_of_app. intros [H1 | H1] [H2 | H2] Hpre.
    + by apply (IHl (code ++ ["0"])).
    + exfalso. destruct e1 as [c1 k1], e2 as [c2 k2]. simpl in Hpre.
      apply (code_list_prefix l Hl) in H1 as [s1 ->].
      apply (code_list_prefix r Hr) in H2 as [s2 ->].
      destruct Hpre as [s Hs]. rewrite <- !app_assoc in Hs.
      apply app_inv_head in Hs. done.
    + exfalso. destruct e1 as [c1 k1], e2 as [c2 k2]. simpl in Hpre.
      apply (code_list_prefix r Hr) in H1 as [s1 ->].
      apply (code_list_prefix l Hl) in H2 as [s2 ->].
      destruct Hpre as [s Hs]. rewrite <- !app_assoc in Hs.
      apply app_inv_head in Hs. done.
    + by apply (IHr (code ++ ["1"])).
Qed.

(** Under a root with children every recorded code has at least one bit. *)
Lemma code_list_merged_nonempty l r c code :
  huffman_tree l → huffman_tree r →
  (c, code) ∈ code_list (merged l r) [] → code ≠ [].
Proof.
  intros Hl Hr. simpl. rewrite elem_of_app. intros [Hc | Hc] ->.
  - apply (code_list_prefix l Hl) in Hc as [s Hs]. done.
  - apply (code_list_prefix r Hr) in Hc as [s Hs]. done.
Qed.

Lemma code_list_bits t : huffman_tree t → ∀ code c code',
  Forall is_bit code → (c, code') ∈ code_list t code → Forall is_bit code'.
Proof.
  induction 1 as [c0 f0 | l r Hl IHl Hr IHr]; intros code c code' Hb; simpl.
  - rewrite list_elem_of_singleton. by intros [= -> ->].
  - rewrite elem_of_app. intros [Hc | Hc].
    + apply (IHl (code ++ ["0"])) in Hc; [done |].
      apply Forall_app. split; [done |]. apply Forall_singleton. by left.
    + apply (IHr (code ++ ["1"])) in Hc; [done |].
      apply Forall_app. split; [done |]. apply Forall_singleton. by right.
Qed.

(** ** Binary digits *)

Lemma int2_foldl_bits s : ∀ n,
  Forall is_bit s →
  foldl (λ acc c, n ← acc; d ← digit2 c; mret (2 * n + d)%N) (inr n) s
  = inr (foldl (λ n c, (2 * n + (if decide (c = "1") then 1 else 0))%N) n s).
Proof.
  induction s as [| c s IH]; intros n Hs; [done |].
  apply Forall_cons in Hs as [Hc Hs]. cbn [foldl].
  rewrite <- IH by done. f_equal. by destruct Hc as [-> | ->].
Qed.

Lemma int2_bits s :
  Forall is_bit s → s ≠ [] → int2 s = inr (bits_value s).
Proof.
  intros Hs Hne. destruct s as [| c s]; [done |].
  exact (int2_foldl_bits (c :: s) 0%N Hs).
Qed.

Lemma bits_value_snoc s c :
  bits_value (s ++ [c])
  = (2 * bits_value s + (if decide (c = "1") then 1 else 0))%N.
Proof. unfold bits_value. by rewrite foldl_app. Qed.

Lemma bits_value_zeros k s :
  bits_value (replicate k "0" ++ s) = bits_value s.
Proof.
  unfold bits_value. rewrite foldl_app.
  assert (foldl (λ n c, (2 * n + (if decide (c = "1") then 1 else 0))%N) 0%N
            (replicate k "0") = 0%N) as ->; [| done].
  induction k as [| k IH]; [done | exact IH].
Qed.

Lemma bin_pos_bits p : Forall is_bit (bin_pos p).
Proof.
  induction p as [p IH | p IH |]; simpl.
  - apply Forall_app. split; [done |]. apply Forall_singleton. by right.
  - apply Forall_app. split; [done |]. apply Forall_singleton. by left.
  - apply Forall_singleton. by right.
Qed.

Lemma bin_pos_value p : bits_value (bin_pos p) = Npos p.
Proof.
  induction p as [p IH | p IH |]; simpl; [| | done];
    rewrite bits_value_snoc, IH; simpl; lia.
Qed.

Lemma format_08b_bits n : Forall is_bit (format_08b n).
Proof.
  unfold format_08b. apply Forall_app. split.
  - apply Forall_replicate. by left.
  - destruct n as [| p]; [apply Forall_singleton; by left | apply bin_pos_bits].
Qed.

Lemma bin_pos_nonempty p : bin_pos p ≠ [].
Proof. destruct p; simpl; try done; by intros [_ ?]%app_eq_nil. Qed.

Lemma format_08b_nonempty n : format_08b n ≠ [].
Proof.
  unfold format_08b. intros [_ H]%app_eq_nil.
  destruct n as [| p]; [done | by apply bin_pos_nonempty in H].
Qed.

(** Parsing undoes formatting. *)
Lemma int2_format_08b n : int2 (format_08b n) = inr n.
Proof.
  rewrite int2_bits by (apply format_08b_bits || apply format_08b_nonempty).
  unfold format_08b. rewrite bits_value_zeros.
  destruct n as [| p]; [done |]. cbn [bin]. by rewrite bin_pos_value.
Qed.

(** A byte is written as exactly eight digits. *)
Lemma format_08b_byte_length (b : byte) : length (format_08b (Byte.to_N b)) = 8.
Proof. by destruct b. Qed.

(** Eight binary digits make a byte, which is read back as the same digits. *)
Lemma chunk_roundtrip (chunk : str) :
  length chunk = 8 → Forall is_bit chunk →
  ∃ b, int2 chunk ≫= (λ n, match Byte.of_N n with
                           | Some b => mret b
                           | None => raise ValueError
                           end) = inr b
       ∧ format_08b (Byte.to_N b) = chunk.
Proof.
  intros Hlen Hbits.
  do 8 (destruct chunk as [| ? chunk]; [done |]).
  destruct chunk; [| done]. clear Hlen.
  repeat match goal with
         | H : Forall is_bit (_ :: _) |- _ =>
             apply Forall_cons in H as [[-> | ->] H]
         end;
    (eexists; split; [vm_compute; reflexivity | reflexivity]).
Qed.

(** ** Packing and unpacking *)

Lemma read_bits_cons b data :
  read_bits (b :: data) = format_08b (Byte.to_N b) ++ read_bits data.
Proof. done. Qed.

Lemma convert_chunks n : ∀ a pre s,
  length pre = a * 8 → length s = n * 8 → Forall is_bit s →
  ∃ data,
    mapM (λ i, n ← int2 (slice (pre ++ s) i (i + 8));
               match Byte.of_N n with
               | Some b => mret b
               | None => raise ValueError
               end)
         ((λ k, k * 8) <$> seq a n) = inr data
    ∧ read_bits data = s.
Proof.
  induction n as [| n IH]; intros a pre s Hpre Hlen Hbits.
  - destruct s; [| done]. by exists [].
  - rewrite <- (take_drop 8 s) in Hbits |- *.
    apply Forall_app in Hbits as [Hchunk Hrest].
    assert (Hc8 : length (take 8 s) = 8) by (rewrite length_take; lia).
    destruct (chunk_roundtrip (take 8 s) Hc8 Hchunk) as (b & Eb & Hb).
    destruct (IH (S a) (pre ++ take 8 s) (drop 8 s)) as (data & Ed & Hd).
    + rewrite length_app. lia.
    + rewrite length_drop. lia.
    + done.
    + exists (b :: data). rewrite read_bits_cons, Hb, Hd. split; [| done].
      cbn [seq fmap list_fmap mapM].
      assert (slice (pre ++ take 8 s ++ drop 8 s) (a * 8) (a * 8 + 8)
              = take 8 s) as ->.
      { unfold slice. rewrite <- Hpre, drop_app_length.
        replace (length pre + 8 - length pre) with (length (take 8 s)) by lia.
        apply take_app_length. }
      rewrite Eb. result_simpl.
      rewrite <- app_assoc in Ed. by rewrite Ed.
Qed.

(** The bytes written are read back as the digits they were made of. *)
Lemma convert_read s :
  Forall is_bit s → length s `mod` 8 = 0 →
  ∃ data, _convert_to_bytes s = inr data ∧ read_bits data = s.
Proof.
  intros Hbits Hlen. unfold _convert_to_bytes, range_step.
  set (n := length s `div` 8).
  assert (Hn : length s = n * 8) by (unfold n; lia).
  replace ((length s + 8 - 1) `div` 8) with n by lia.
  by apply (convert_chunks n 0 [] s).
Qed.

Lemma format_08b_small_length (p : nat) :
  p ≤ 8 → length (format_08b (N.of_nat p)) = 8.
Proof. intros Hp. do 9 (destruct p as [| p]; [done |]). lia. Qed.

Lemma add_padding_length enc : length (_add_padding enc) `mod` 8 = 0.
Proof.
  unfold _add_padding. rewrite !length_app, length_replicate.
  rewrite format_08b_small_length by lia. lia.
Qed.

Lemma add_padding_bits enc : Forall is_bit enc → Forall is_bit (_add_padding enc).
Proof.
  intros Henc. unfold _add_padding. rewrite !Forall_app.
  split; [apply format_08b_bits |]. split; [done |].
  apply Forall_replicate. by left.
Qed.

(** Unpacking undoes the padding. *)
Lemma remove_add_padding enc : _remove_padding (_add_padding enc) = inr enc.
Proof.
  unfold _remove_padding, _add_padding.
  set (p := 8 - length enc `mod` 8).
  assert (Hp : 1 ≤ p ≤ 8) by (unfold p; lia).
  pose proof (format_08b_small_length p (proj2 Hp)) as Hh.
  rewrite <- Hh at 1. rewrite take_app_length, int2_format_08b. result_simpl.
  rewrite bool_decide_eq_true_2 by lia. f_equal.
  unfold slice. rewrite <- Hh at 2. rewrite drop_app_length.
  rewrite !length_app, length_replicate, Hh, Nat2N.id.
  replace (8 + (length enc + p) - p - 8) with (length enc) by lia.
  apply take_app_length.
Qed.

(** ** The dictionaries after [_generate_codes] *)

Lemma code_list_NoDup_codes t :
  huffman_tree t → NoDup (code_list t []).*1 → NoDup (code_list t []).*2.
Proof.
  intros Ht Hnd. apply NoDup_fmap_2_strong; [| by apply NoDup_fmap_1 in Hnd].
  intros e1 e2 H1 H2 Heq. apply (code_list_prefix_free t Ht [] e1 e2 H1 H2).
  by rewrite Heq.
Qed.

Lemma prod_swap_fst {A B} (l : list (A * B)) : (prod_swap <$> l).*1 = l.*2.
Proof. rewrite <- list_fmap_compose. by apply list_fmap_ext; intros ? []. Qed.

(** Every entry of [code_list] is in both dictionaries afterwards, whatever
    they held before. *)
Lemma generate_codes_lookup self t c code :
  huffman_tree t → NoDup (code_list t []).*1 →
  (c, code) ∈ code_list t [] →
  codes (generate_codes_node self t []) !! c = Some code
  ∧ reverse_codes (generate_codes_node self t []) !! code = Some c.
Proof.
  intros Ht Hnd Hin. rewrite generate_codes_node_spec by done. simpl. split.
  - by apply lookup_record_all_in.
  - apply lookup_record_all_in.
    + rewrite prod_swap_fst. by apply code_list_NoDup_codes.
    + apply list_elem_of_fmap. by exists (c, code).
Qed.

(** On a new instance the dictionaries hold the entries of [code_list] and
    nothing else. *)
Lemma generate_codes_init t c code :
  huffman_tree t → NoDup (code_list t []).*1 →
  (codes (generate_codes_node FileCompression_init t []) !! c = Some code
   ↔ (c, code) ∈ code_list t [])
  ∧ (reverse_codes (generate_codes_node FileCompression_init t []) !! code
       = Some c
     ↔ (c, code) ∈ code_list t []).
Proof.
  intros Ht Hnd. split; (split; [| by apply generate_codes_lookup]).
  - rewrite generate_codes_node_spec by done. simpl.
    intros [Hin | Hm]%lookup_record_all_Some; [done |].
    by rewrite lookup_empty in Hm.
  - rewrite generate_codes_node_spec by done. simpl.
    intros [Hin | Hm]%lookup_record_all_Some.
    + apply list_elem_of_fmap in Hin as ([c' code'] & [= -> ->] & Hin). done.
    + by rewrite lookup_empty in Hm.
Qed.

(** ** Encoding and greedy decoding *)

Lemma encode_text_spec self text :
  (∀ c, c ∈ text → is_Some (codes self !! c)) →
  _encode_text self text = inr (text ≫= code_of self).
Proof.
  induction text as [| c text IH]; intros Hc; [done |].
  cbn [_encode_text]. destruct (Hc c) as [code Hcode]; [by left |].
  rewrite Hcode, IH by (intros; apply Hc; by right). result_simpl.
  rewrite bind_cons.
  by assert (code_of self c = code) as -> by (unfold code_of; by rewrite Hcode).
Qed.

Lemma decode_code self c code :
  decodable self → codes self !! c = Some code →
  ∀ rest cur out tail, code = cur ++ rest → rest ≠ [] →
  foldl (decode_step self) (cur, out) (rest ++ tail)
  = foldl (decode_step self) ([], out ++ [c]) tail.
Proof.
  intros [Hrev Hpre] Hcode. induction rest as [| b rest IH]; [done |].
  intros cur out tail Hsplit _. cbn [app foldl decode_step].
  destruct (decide (rest = [])) as [-> | Hne].
  - rewrite <- Hsplit. by destruct (Hrev c code Hcode) as [-> _].
  - destruct (reverse_codes self !! (cur ++ [b])) as [v |] eqn:Hv.
    + exfalso. assert (cur ++ [b] = code) as Heq.
      { apply (Hpre c); [done | | done].
        exists rest. by rewrite <- app_assoc. }
      rewrite Hsplit in Heq. apply app_inv_head in Heq.
      by destruct rest.
    + apply IH; [| done]. by rewrite <- app_assoc.
Qed.

Lemma decode_text_spec self text :
  decodable self → (∀ c, c ∈ text → is_Some (codes self !! c)) →
  _decode_text self (text ≫= code_of self) = text.
Proof.
  intros Hdec Hc. unfold _decode_text.
  assert (∀ out, foldl (decode_step self) ([], out) (text ≫= code_of self)
                 = ([], out ++ text)) as ->; [| done].
  induction text as [| c text IH]; intros out.
  { by rewrite app_nil_r. }
  destruct (Hc c) as [code Hcode]; [by left |].
  rewrite bind_cons.
  assert (code_of self c = code) as -> by (unfold code_of; by rewrite Hcode).
  rewrite (decode_code self c code Hdec Hcode code [] out); [| done |].
  - rewrite IH by (intros; apply Hc; by right).
    by rewrite <- app_assoc.
  - by destruct Hdec as [Hrev _]; destruct (Hrev c code Hcode).
Qed.

(** ** Frequency analysis *)

Lemma count_cons text c x :
  count (c :: text) x = (if decide (c = x) then 1 else 0) + count text x.
Proof. unfold count. rewrite filter_cons. by case_decide. Qed.

Lemma frequency_dict_keys set_text text :
  (_build_frequency_dict text set_text).*1 = set_text.
Proof.
  unfold _build_frequency_dict. rewrite <- list_fmap_compose.
  induction set_text as [| c l IH]; [done |]. simpl. by f_equal.
Qed.

Lemma frequency_dict_values set_text text :
  (_build_frequency_dict text set_text).*2 = count text <$> set_text.
Proof. unfold _build_frequency_dict. by rewrite <- list_fmap_compose. Qed.

Lemma elem_of_frequency_dict set_text text c n :
  (c, n) ∈ _build_frequency_dict text set_text
  ↔ c ∈ set_text ∧ n = count text c.
Proof.
  unfold _build_frequency_dict. rewrite list_elem_of_fmap. split.
  - by intros (c' & [= -> ->] & Hc).
  - intros [Hc ->]. by exists c.
Qed.

Lemma sum_indicator_notin (c : ascii) chars :
  c ∉ chars → sum_list ((λ x, if decide (c = x) then 1 else 0) <$> chars) = 0.
Proof.
  induction chars as [| y chars IH]; [done |].
  intros [Hne Hc]%not_elem_of_cons. rewrite fmap_cons. cbn [sum_list_with].
  rewrite decide_False by done. by rewrite IH.
Qed.

Lemma sum_indicator (c : ascii) chars :
  NoDup chars → c ∈ chars →
  sum_list ((λ x, if decide (c = x) then 1 else 0) <$> chars) = 1.
Proof.
  induction 1 as [| x chars Hx Hnd IH]; [by intros ?%elem_of_nil |].
  intros Hc. rewrite fmap_cons. cbn [sum_list_with]. case_decide as Hcx.
  - subst x. by rewrite sum_indicator_notin.
  - apply elem_of_cons in Hc as [-> | Hc]; [done |]. by rewrite IH.
Qed.

Lemma sum_list_fmap_add {A} (f g : A → nat) l :
  sum_list ((λ x, f x + g x) <$> l) = sum_list (f <$> l) + sum_list (g <$> l).
Proof.
  induction l as [| x l IH]; [done |].
  rewrite !fmap_cons. cbn [sum_list_with]. rewrite IH. unfold id. lia.
Qed.

Lemma sum_counts chars text :
  NoDup chars → (∀ c, c ∈ text → c ∈ chars) →
  sum_list (count text <$> chars) = length text.
Proof.
  intros Hnd. induction text as [| c text IH]; intros Hsub.
  - clear Hnd Hsub. induction chars as [| x chars IHc]; [done |].
    rewrite fmap_cons. cbn [sum_list_with]. by rewrite IHc.
  - assert (count (c :: text) <$> chars
            = (λ x, (if decide (c = x) then 1 else 0) + count text x) <$> chars)
      as -> by (apply list_fmap_ext; intros; apply count_cons).
    rewrite (sum_list_fmap_add (λ x, if decide (c = x) then 1 else 0)
               (count text)).
    rewrite sum_indicator, IH; [done | | done |].
    + intros c' Hc'. apply Hsub. by right.
    + apply Hsub. by left.
Qed.

(** ** [compress] as a whole *)

Section compress_text.

(** A non-empty text and an iteration order of its characters. *)
Context (text : str) (set_text : list ascii).
Hypothesis Hset : set_iteration text set_text.
Hypothesis Hne : text ≠ [].

(** [compress] succeeds, from any instance state: the root built carries
    the characters of the text, the codes of [code_list root []] are written
    to the dictionaries, and the bytes yielded hold the padded concatenation
    of the codes of the text. *)
Lemma compress_spec self :
  ∃ root data,
    compress self text set_text = inr (generate_codes_node self root [], data)
    ∧ forest_inv [root]
    ∧ symbol_freqs root ≡ₚ _build_frequency_dict text set_text
    ∧ NoDup (code_list root []).*1
    ∧ (∀ c, c ∈ text ↔ c ∈ (code_list root []).*1)
    ∧ read_bits data
      = _add_padding (text ≫= code_of (generate_codes_node self root [])).
Proof.
  destruct Hset as [Hnd Hchars].
  destruct (build_tree_spec (_build_frequency_dict text set_text))
    as (heap & root & Eh & Er & Hinv & Hsym).
  { destruct text as [| c text']; [done |].
    assert (Hc : c ∈ set_text) by (apply Hchars; by left).
    intros Hnil. apply (f_equal (fmap fst)) in Hnil.
    rewrite frequency_dict_keys in Hnil. rewrite Hnil in Hc.
    by apply elem_of_nil in Hc. }
  assert (Ht : huffman_tree root).
  { pose proof (forest_trees _ Hinv) as Htrees. by inversion Htrees. }
  assert (Hkeys : (code_list root []).*1 ≡ₚ set_text).
  { rewrite code_list_symbols by done. by rewrite Hsym, frequency_dict_keys. }
  assert (Hnd' : NoDup (code_list root []).*1) by by rewrite Hkeys.
  assert (Hin : ∀ c, c ∈ text ↔ c ∈ (code_list root []).*1).
  { intros c. by rewrite Hkeys, Hchars. }
  set (self' := generate_codes_node self root []).
  assert (Hcodes : ∀ c, c ∈ text →
    ∃ code, (c, code) ∈ code_list root [] ∧ codes self' !! c = Some code).
  { intros c Hc. apply Hin, list_elem_of_fmap in Hc as ([c' code] & -> & Hc).
    exists code. split; [done |]. by apply generate_codes_lookup. }
  assert (Hbits : Forall is_bit (text ≫= code_of self')).
  { apply Forall_bind, Forall_forall. intros c Hc.
    destruct (Hcodes c Hc) as (code & Hcl & Hcode).
    unfold compose, code_of. rewrite Hcode. simpl.
    by apply (code_list_bits root Ht [] c). }
  destruct (convert_read (_add_padding (text ≫= code_of self')))
    as (data & Ed & Hd);
    [by apply add_padding_bits | apply add_padding_length |].
  exists root, data. split; [| done].
  unfold compress. rewrite Eh. result_simpl. rewrite Er. result_simpl.
  cbn [_generate_codes]. fold self'.
  rewrite encode_text_spec.
  - result_simpl. by rewrite Ed.
  - intros c Hc. destruct (Hcodes c Hc) as (code & _ & Hcode). by exists code.
Qed.

(** ** The code table of a new instance *)

(** After [compress] on a new instance the dictionaries are those of
    [code_list root []]. *)
Lemma compress_init_spec :
  ∃ root self data,
    compress FileCompression_init text set_text = inr (self, data)
    ∧ forest_inv [root]
    ∧ symbol_freqs root ≡ₚ _build_frequency_dict text set_text
    ∧ (∀ c, c ∈ text ↔ c ∈ (code_list root []).*1)
    ∧ (∀ c code, codes self !! c = Some code ↔ (c, code) ∈ code_list root [])
    ∧ (∀ c code,
         reverse_codes self !! code = Some c ↔ (c, code) ∈ code_list root [])
    ∧ read_bits data = _add_padding (text ≫= code_of self).
Proof.
  destruct (compress_spec FileCompression_init)
    as (root & data & E & Hinv & Hsym & Hnd & Hin & Hd).
  assert (Ht : huffman_tree root).
  { pose proof (forest_trees _ Hinv) as Htrees. by inversion Htrees. }
  exists root, (generate_codes_node FileCompression_init root []), data.
  do 4 (split; [done |]). split; [| split; [| done]].
  - intros c code. by apply generate_codes_init.
  - intros c code. by apply generate_codes_init.
Qed.

(** C6.  The code table [compress] derives on a new instance, for any
    non-empty text and any iteration order of its characters: the characters
    with a code are those of the text; for two different characters neither
    code is a prefix of the other, and the codes differ; and [codes] and
    [reverse_codes] are inverse to each other. *)
Theorem code_table_prefix_free :
  ∃ self data,
    compress FileCompression_init text set_text = inr (self, data)
    ∧ (∀ c, is_Some (codes self !! c) ↔ c ∈ text)
    ∧ (∀ a b code_a code_b,
         a ≠ b → codes self !! a = Some code_a → codes self !! b = Some code_b →
         ¬ code_a `prefix_of` code_b ∧ code_a ≠ code_b)
    ∧ (∀ c code,
         codes self !! c = Some code ↔ reverse_codes self !! code = Some c).
Proof.
  destruct compress_init_spec
    as (root & self & data & E & Hinv & _ & Hin & Hcodes & Hrev & _).
  assert (Ht : huffman_tree root).
  { pose proof (forest_trees _ Hinv) as Htrees. by inversion Htrees. }
  exists self, data. split; [done |]. split; [| split].
  - intros c. rewrite Hin, list_elem_of_fmap. split.
    + intros [code Hc%Hcodes]. by exists (c, code).
    + intros ([c' code] & -> & Hc). exists code. by apply Hcodes.
  - intros a b code_a code_b Hab Ha%Hcodes Hb%Hcodes.
    assert (Hpre : ¬ code_a `prefix_of` code_b).
    { intros Hpre. apply Hab.
      by injection (code_list_prefix_free root Ht [] _ _ Ha Hb Hpre). }
    split; [done |]. by intros ->.
  - intros c code. by rewrite Hcodes, Hrev.
Qed.

(** C8.  In the code table after [compress], whatever the instance held
    before, a character of the text that occurs more often than another has
    a code that is no longer; for characters that occur equally often the
    order of the lengths is left to the way ties fall. *)
Theorem code_length_monotone self :
  ∃ self' data,
    compress self text set_text = inr (self', data)
    ∧ ∀ a b code_a code_b,
        a ∈ text → b ∈ text →
        codes self' !! a = Some code_a → codes self' !! b = Some code_b →
        count text b < count text a → length code_a ≤ length code_b.
Proof.
  destruct (compress_spec self)
    as (root & data & E & Hinv & Hsym & Hnd & Hin & _).
  assert (Ht : huffman_tree root).
  { pose proof (forest_trees _ Hinv) as Htrees. by inversion Htrees. }
  eexists _, data. split; [exact E |].
  assert (Hdepth : ∀ c code,
    c ∈ text → codes (generate_codes_node self root []) !! c = Some code →
    (count text c, length code) ∈ nodes root 0).
  { intros c code Hc Hcode.
    apply Hin, list_elem_of_fmap in Hc as ([c' code'] & -> & Hc).
    destruct (generate_codes_lookup self root c' code' Ht Hnd Hc) as [Hc' _].
    simpl in Hcode. rewrite Hc' in Hcode. injection Hcode as ->.
    apply (code_list_nodes root Ht) in Hc as (f & Hf & Hn).
    rewrite Hsym in Hf. by apply elem_of_frequency_dict in Hf as [_ ->]. }
  intros a b code_a code_b Ha Hb Hca Hcb Hlt.
  apply (forest_depths _ Hinv (count text b) _ (count text a));
    [| | done]; rewrite bind_singleton; by apply Hdepth.
Qed.

End compress_text.

(** C1.  A non-empty text with at least two distinct characters is
    compressed on a new instance, for any iteration order of its characters,
    and decompressing the bytes with the instance state that [compress] left
    gives the text back. *)
Theorem compress_decompress_roundtrip text set_text :
  set_iteration text set_text →
  (∃ a b, a ∈ text ∧ b ∈ text ∧ a ≠ b) →
  ∃ self data,
    compress FileCompression_init text set_text = inr (self, data)
    ∧ decompress self data = inr text.
Proof.
  intros Hset (a & b & Ha & Hb & Hab).
  assert (Hne : text ≠ []) by (intros ->; by apply elem_of_nil in Ha).
  destruct (compress_init_spec text set_text Hset Hne)
    as (root & self & data & E & Hinv & _ & Hin & Hcodes & Hrev & Hd).
  assert (Ht : huffman_tree root).
  { pose proof (forest_trees _ Hinv) as Htrees. by inversion Htrees. }
  exists self, data. split; [done |].
  assert (Hnonempty : ∀ c code, (c, code) ∈ code_list root [] → code ≠ []).
  { destruct Ht as [c0 f0 | l r Hl Hr].
    - apply Hin in Ha, Hb. simpl in Ha, Hb.
      apply list_elem_of_singleton in Ha, Hb. congruence.
    - intros c code. by apply code_list_merged_nonempty. }
  assert (Hdec : decodable self).
  { split.
    - intros c code Hc%Hcodes. split; [by apply Hrev | by apply (Hnonempty c)].
    - intros c code p Hc%Hcodes Hpre [c' Hp%Hrev].
      by injection (code_list_prefix_free root Ht [] _ _ Hp Hc Hpre). }
  unfold decompress. rewrite Hd, remove_add_padding. result_simpl.
  rewrite decode_text_spec; [done | done |].
  intros c Hc. apply Hin, list_elem_of_fmap in Hc as ([c' code] & -> & Hc).
  exists code. by apply Hcodes.
Qed.

(** C7.  The frequency dictionary has the distinct characters of the text
    as its keys, each once and each with the number of its occurrences, and
    the counts add up to the length of the text. *)
Theorem frequency_dict_counts text set_text :
  set_iteration text set_text →
  NoDup (_build_frequency_dict text set_text).*1
  ∧ (∀ c, c ∈ text ↔ c ∈ (_build_frequency_dict text set_text).*1)
  ∧ (∀ c n, (c, n) ∈ _build_frequency_dict text set_text → n = count text c)
  ∧ sum_list (_build_frequency_dict text set_text).*2 = length text.
Proof.
  intros [Hnd Hset]. rewrite frequency_dict_keys, frequency_dict_values.
  split; [done |]. split; [by intros c; rewrite Hset |]. split.
  - by intros c n [_ ->]%elem_of_frequency_dict.
  - apply sum_counts; [done |]. intros c. apply Hset.
Qed.

(** ** Padding *)

(** C5.  The padding count is [8 - len(B) mod 8] and lies between 1 and 8;
    the first eight digits of the padded string are the count in binary, the
    encoded digits and then that many zeros follow, so that a whole byte of
    zeros is added when [len(B)] is a multiple of 8; the padded length is a
    multiple of 8. *)
Theorem add_padding_count encoded_text :
  ∃ padding,
    padding = 8 - length encoded_text `mod` 8
    ∧ 1 ≤ padding ≤ 8
    ∧ length (take 8 (_add_padding encoded_text)) = 8
    ∧ int2 (take 8 (_add_padding encoded_text)) = inr (N.of_nat padding)
    ∧ drop 8 (_add_padding encoded_text)
      = encoded_text ++ replicate padding "0"
    ∧ (length encoded_text `mod` 8 = 0 →
       padding = 8
       ∧ drop 8 (_add_padding encoded_text)
         = encoded_text ++ replicate 8 "0")
    ∧ length (_add_padding encoded_text) `mod` 8 = 0.
Proof.
  exists (8 - length encoded_text `mod` 8).
  set (padding := 8 - length encoded_text `mod` 8).
  assert (Hp : 1 ≤ padding ≤ 8) by (unfold padding; lia).
  pose proof (format_08b_small_length padding (proj2 Hp)) as Hh.
  assert (Htake : take 8 (_add_padding encoded_text)
                  = format_08b (N.of_nat padding)).
  { unfold _add_padding. fold padding. rewrite <- Hh at 1.
    apply take_app_length. }
  assert (Hdrop : drop 8 (_add_padding encoded_text)
                  = encoded_text ++ replicate padding "0").
  { unfold _add_padding. fold padding. rewrite <- Hh at 1.
    apply drop_app_length. }
  split; [done |]. split; [done |]. rewrite Htake.
  split; [done |]. split; [apply int2_format_08b |]. split; [done |].
  split; [| apply add_padding_length].
  intros Hmod. assert (padding = 8) as Heq by (unfold padding; lia).
  split; [done |]. by rewrite Hdrop, Heq.
Qed.

(** ** Inputs outside the round trip *)

(** A list checked to be an iteration order of the characters of a text. *)
Lemma set_iteration_check text chars :
  NoDup chars → Forall (λ c, c ∈ text) chars → Forall (λ c, c ∈ chars) text →
  set_iteration text chars.
Proof.
  rewrite !Forall_forall. intros Hnd H1 H2. split; [done |].
  intros c. split; [apply H1 | apply H2].
Qed.

Lemma set_iteration_nil set_text : set_iteration [] set_text → set_text = [].
Proof.
  intros [_ Hset]. destruct set_text as [| c l]; [done |].
  exfalso. apply (elem_of_nil c), Hset. by left.
Qed.

(** C2, as the code has it.  On the empty text [compress] raises
    [IndexError], from [heap[0]] on the empty heap, and yields no bytes. *)
Theorem compress_empty_IndexError self set_text :
  set_iteration [] set_text → compress self [] set_text = inl IndexError.
Proof. intros ->%set_iteration_nil. done. Qed.

(** C2 as stated fails: the exception on the empty text is not
    [EmptyInputError]. *)
Lemma compress_empty_not_EmptyInputError :
  compress FileCompression_init [] [] = inl IndexError
  ∧ compress FileCompression_init [] [] ≠ inl EmptyInputError.
Proof. split; [done | by intros [=]]. Qed.

(** C3, evaluated at ["aaaa"]: the only character gets the empty code, the
    bytes hold no encoded digit, and [decompress] yields the empty text. *)
Lemma single_symbol_empty_code :
  ∃ self,
    compress FileCompression_init ["a"; "a"; "a"; "a"] ["a"]
      = inr (self, ["008"%byte; "000"%byte])
    ∧ codes self !! "a" = Some []
    ∧ decompress self ["008"%byte; "000"%byte] = inr [].
Proof. eexists. split; [reflexivity |]. split; reflexivity. Qed.

(** The same for every text that repeats one character: whatever its
    length, the bytes are [8, 0] and decompressing them yields the empty
    text. *)
Lemma single_symbol_text_lost (c : ascii) (n : nat) :
  ∃ self,
    compress FileCompression_init (replicate (S n) c) [c]
      = inr (self, ["008"%byte; "000"%byte])
    ∧ codes self !! c = Some []
    ∧ decompress self ["008"%byte; "000"%byte] = inr [].
Proof.
  set (self := {| codes := <[c := []]> ∅; reverse_codes := <[[] := c]> ∅ |}).
  assert (Hc : codes self !! c = Some []) by apply lookup_insert_eq.
  exists self. split; [| by split].
  assert (Henc : ∀ m, _encode_text self (replicate m c) = inr []).
  { induction m as [| m IH]; [done |].
    cbn [replicate _encode_text]. rewrite Hc. result_simpl. by rewrite IH. }
  unfold compress. cbn [_build_frequency_dict fmap list_fmap].
  change (_build_heap [(c, count (replicate (S n) c) c)])
    with (inr (A:=exn) [new_node (Some c) (count (replicate (S n) c) c)]).
  result_simpl.
  change (_build_huffman_tree [new_node (Some c) (count (replicate (S n) c) c)])
    with (inr (A:=exn) (new_node (Some c) (count (replicate (S n) c) c))).
  result_simpl.
  change (_generate_codes FileCompression_init _ []) with self.
  by rewrite Henc.
Qed.

(** C4, as the code has it.  [decompress] raises only on the empty buffer,
    and then [ValueError] (from [int("", 2)]).  On any other buffer it
    returns: the digits after the header, less as many at the end as the
    first byte says (all of them when it says more than there are), are
    matched greedily, and what is left unmatched at the end is dropped. *)
Theorem decompress_outcome self data :
  decompress self data =
    match data with
    | [] => inl ValueError
    | b :: rest =>
        inr (_decode_text self
               (take (length rest * 8 - N.to_nat (Byte.to_N b))
                     (read_bits rest)))
    end.
Proof.
  destruct data as [| b rest]; [done |].
  unfold decompress, _remove_padding. rewrite read_bits_cons.
  pose proof (format_08b_byte_length b) as Hb.
  assert (Hlen : length (read_bits rest) = length rest * 8).
  { induction rest as [| b' rest IH]; [done |].
    rewrite read_bits_cons, length_app, format_08b_byte_length, IH. simpl. lia. }
  rewrite take_app_length' by done. rewrite int2_format_08b. result_simpl.
  do 2 f_equal. unfold slice. rewrite drop_app_length' by done.
  case_bool_decide as Hz.
  - f_equal. rewrite length_app. lia.
  - rewrite Hz. change (N.to_nat 0) with 0.
    by rewrite Nat.sub_0_r, <- Hlen, firstn_all.
Qed.

(** C4 as stated fails: with the dictionaries [compress] leaves for ["abc"]
    (c is 0, a is 10, b is 11), a buffer whose first byte asks to strip 200
    digits is decompressed to the empty text, a buffer whose digits 01 end
    in the unmatched candidate 1 is decompressed to ["c"], and the empty
    buffer raises [ValueError]. *)
Lemma decompress_silent :
  ∃ self data,
    compress FileCompression_init ["a"; "b"; "c"] ["a"; "b"; "c"]
      = inr (self, data)
    ∧ decompress self ["200"%byte] = inr []
    ∧ decompress self ["006"%byte; "064"%byte] = inr ["c"]
    ∧ decompress self [] = inl ValueError
    ∧ decompress self [] ≠ inl MalformedStreamError.
Proof.
  eexists _, _. split; [reflexivity |].
  split; [reflexivity |]. split; [reflexivity |]. split; [reflexivity |].
  by intros [=].
Qed.

(** ** Ties and the order of insertion *)

Lemma freq_shape t : freq (shape t) = freq t.
Proof. by destruct t. Qed.

Lemma node_lt_shape x y : node_lt (shape x) (shape y) = node_lt x y.
Proof. unfold node_lt. by rewrite !freq_shape. Qed.

Lemma getitem_fmap {A B} (f : A → B) l i :
  getitem (f <$> l) i = rmap f (getitem l i).
Proof. unfold getitem. rewrite list_lookup_fmap. by destruct (l !! i). Qed.

Lemma setitem_fmap {A B} (f : A → B) l i x :
  setitem (f <$> l) i (f x) = rmap (fmap f) (setitem l i x).
Proof.
  unfold setitem. rewrite length_fmap. case_bool_decide; [| done].
  simpl. by rewrite list_fmap_insert.
Qed.

Lemma siftdown_loop_shape fuel : ∀ h startpos pos x,
  heapq._siftdown_loop fuel (shape <$> h) startpos pos (shape x)
  = rmap (fmap shape) (heapq._siftdown_loop fuel h startpos pos x).
Proof.
  induction fuel as [| fuel IH]; intros h startpos pos x;
    cbn [heapq._siftdown_loop]; case_bool_decide;
    try done; try apply setitem_fmap.
  rewrite getitem_fmap. destruct (getitem h _) as [e | p]; [done |].
  unfold rmap at 1. result_simpl. rewrite node_lt_shape.
  destruct (node_lt x p); [| apply setitem_fmap].
  rewrite setitem_fmap. destruct (setitem h pos p) as [e | h']; [done |].
  unfold rmap at 1. result_simpl. apply IH.
Qed.

Lemma siftdown_shape h startpos pos :
  heapq._siftdown (shape <$> h) startpos pos
  = rmap (fmap shape) (heapq._siftdown h startpos pos).
Proof.
  unfold heapq._siftdown. rewrite getitem_fmap.
  destruct (getitem h pos) as [e | x]; [done |].
  unfold rmap at 1. result_simpl. apply siftdown_loop_shape.
Qed.

Lemma siftup_loop_shape fuel : ∀ h endpos pos childpos,
  heapq._siftup_loop fuel (shape <$> h) endpos pos childpos
  = rmap (λ '(h, p), (shape <$> h, p))
         (heapq._siftup_loop fuel h endpos pos childpos).
Proof.
  induction fuel as [| fuel IH]; intros h endpos pos childpos;
    cbn [heapq._siftup_loop]; case_bool_decide; try done.
  assert (∀ c,
    (child ← getitem (shape <$> h) c;
     heap ← setitem (shape <$> h) pos child;
     heapq._siftup_loop fuel heap endpos c (2 * c + 1))
    = rmap (λ '(h, p), (shape <$> h, p))
        ((child ← getitem h c;
          heap ← setitem h pos child;
          heapq._siftup_loop fuel heap endpos c (2 * c + 1))
         : result (list BinaryTreeNode * nat)))
    as Hrest.
  { intros c. rewrite getitem_fmap. destruct (getitem h c) as [e | x]; [done |].
    unfold rmap at 1. result_simpl. rewrite setitem_fmap.
    destruct (setitem h pos x) as [e | h']; [done |].
    unfold rmap at 1. result_simpl. apply IH. }
  case_bool_decide; [| apply Hrest].
  rewrite !getitem_fmap.
  destruct (getitem h childpos) as [e | l]; [done |].
  destruct (getitem h (childpos + 1)) as [e | r]; [done |].
  unfold rmap at 1 2. result_simpl. rewrite node_lt_shape.
  destruct (node_lt l r); apply Hrest.
Qed.

Lemma siftup_shape h pos :
  heapq._siftup (shape <$> h) pos = rmap (fmap shape) (heapq._siftup h pos).
Proof.
  unfold heapq._siftup. rewrite getitem_fmap, length_fmap.
  destruct (getitem h pos) as [e | x]; [done |].
  unfold rmap at 1. result_simpl. rewrite siftup_loop_shape.
  destruct (heapq._siftup_loop _ h _ _ _) as [e | [h' p]]; [done |].
  unfold rmap at 1. result_simpl. rewrite setitem_fmap.
  destruct (setitem h' p x) as [e | h'']; [done |].
  unfold rmap at 1. result_simpl. apply siftdown_shape.
Qed.

Lemma heappush_shape h x :
  heapq.heappush (shape <$> h) (shape x)
  = rmap (fmap shape) (heapq.heappush h x).
Proof.
  unfold heapq.heappush.
  rewrite <- (siftdown_shape (h ++ [x])), fmap_app, !length_app, length_fmap.
  done.
Qed.

Lemma heappop_shape h :
  heapq.heappop (shape <$> h)
  = rmap (λ '(x, h), (shape x, shape <$> h)) (heapq.heappop h).
Proof.
  unfold heapq.heappop.
  destruct h as [| z h0 _] using rev_ind; [done |].
  rewrite fmap_app. change (shape <$> [z]) with [shape z].
  rewrite !last_snoc, !removelast_last.
  destruct h0 as [| y t]; [done |]. rewrite fmap_cons. lazy beta iota.
  rewrite <- fmap_cons.
  rewrite setitem_fmap. destruct (setitem (y :: t) 0 z) as [e | h1]; [done |].
  unfold rmap at 1. result_simpl. rewrite siftup_shape.
  by destruct (heapq._siftup h1 0).
Qed.

Lemma build_heap_loop_shape items1 : ∀ items2 heap1 heap2,
  items1.*2 = items2.*2 → shape <$> heap1 = shape <$> heap2 →
  rmap (fmap shape) (_build_heap_loop heap1 items1)
  = rmap (fmap shape) (_build_heap_loop heap2 items2).
Proof.
  induction items1 as [| [v1 f1] items1 IH];
    intros [| [v2 f2] items2] heap1 heap2 Hitems Hheap; try done.
  { simpl. by rewrite Hheap. }
  injection Hitems as -> Hitems. cbn [_build_heap_loop].
  pose proof (heappush_shape heap1 (new_node (Some v1) f2)) as H1.
  pose proof (heappush_shape heap2 (new_node (Some v2) f2)) as H2.
  rewrite Hheap in H1. change (shape (new_node _ f2)) with (new_node None f2) in *.
  rewrite H1 in H2. clear H1.
  destruct (heapq.heappush heap1 _) as [e1 | h1],
    (heapq.heappush heap2 _) as [e2 | h2]; try done.
  result_simpl. apply IH; [done |]. by injection H2.
Qed.

Lemma build_huffman_tree_loop_shape fuel : ∀ heap,
  _build_huffman_tree_loop fuel (shape <$> heap)
  = rmap (fmap shape) (_build_huffman_tree_loop fuel heap).
Proof.
  induction fuel as [| fuel IH]; intros heap;
    cbn [_build_huffman_tree_loop]; rewrite length_fmap;
    case_bool_decide; try done.
  rewrite heappop_shape.
  destruct (heapq.heappop heap) as [e | [l h1]]; [done |].
  unfold rmap at 1. result_simpl. rewrite heappop_shape.
  destruct (heapq.heappop h1) as [e | [r h2]]; [done |].
  unfold rmap at 1. result_simpl. rewrite !freq_shape.
  change (Node None (freq l + freq r) (Some (shape l)) (Some (shape r)))
    with (shape (Node None (freq l + freq r) (Some l) (Some r))).
  rewrite heappush_shape.
  destruct (heapq.heappush h2 _) as [e | h3]; [done |].
  unfold rmap at 1. result_simpl. apply IH.
Qed.

Lemma build_huffman_tree_shape heap :
  _build_huffman_tree (shape <$> heap) = rmap shape (_build_huffman_tree heap).
Proof.
  unfold _build_huffman_tree.
  rewrite length_fmap, build_huffman_tree_loop_shape.
  destruct (_build_huffman_tree_loop _ heap) as [e | h]; [done |].
  unfold rmap at 1. result_simpl. apply getitem_fmap.
Qed.

Lemma build_tree_shape freq_dict :
  rmap shape (build_tree freq_dict)
  = (heap ← rmap (fmap shape) (_build_heap freq_dict);
     _build_huffman_tree heap).
Proof.
  unfold build_tree. destruct (_build_heap freq_dict) as [e | heap]; [done |].
  unfold rmap at 2. result_simpl. by rewrite build_huffman_tree_shape.
Qed.

(** [compress] builds [build_tree] of the frequency dictionary. *)
Lemma compress_build_tree self text set_text :
  compress self text set_text =
    (root ← build_tree (_build_frequency_dict text set_text);
     let self := _generate_codes self (Some root) [] in
     encoded_text ← _encode_text self text;
     byte_data ← _convert_to_bytes (_add_padding encoded_text);
     mret (self, byte_data)).
Proof.
  unfold compress, build_tree. by destruct (_build_heap _).
Qed.

(** C9, as the code has it.  Nodes are compared by frequency alone, so on a
    tie the places of the nodes in the heap decide, and these follow from the
    order in which the entries of the frequency dictionary are pushed: two
    dictionaries that list the same counts in the same order give trees of
    the same shape, whatever their characters. *)
Theorem tree_shape_from_insertion_order freq_dict1 freq_dict2 :
  freq_dict1.*2 = freq_dict2.*2 →
  rmap shape (build_tree freq_dict1) = rmap shape (build_tree freq_dict2).
Proof.
  intros Hcounts. rewrite !build_tree_shape. unfold _build_heap.
  by rewrite (build_heap_loop_shape freq_dict1 freq_dict2 [] []).
Qed.

(** C9 as stated fails: the two iteration orders of the characters of
    ["ab"] give different code tables. *)
Lemma iteration_order_changes_codes :
  ∃ self1 data1 self2 data2,
    set_iteration ["a"; "b"] ["a"; "b"] ∧ set_iteration ["a"; "b"] ["b"; "a"]
    ∧ compress FileCompression_init ["a"; "b"] ["a"; "b"] = inr (self1, data1)
    ∧ compress FileCompression_init ["a"; "b"] ["b"; "a"] = inr (self2, data2)
    ∧ codes self1 !! "a" = Some ["0"] ∧ codes self2 !! "a" = Some ["1"]
    ∧ codes self1 ≠ codes self2.
Proof.
  eexists _, _, _, _.
  split; [apply set_iteration_check; compute_done |].
  split; [apply set_iteration_check; compute_done |].
  split; [reflexivity |]. split; [reflexivity |].
  split; [reflexivity |]. split; [reflexivity |].
  intros Heq. apply (f_equal (λ m, m !! "a")) in Heq. vm_compute in Heq. done.
Qed.

(** ** A second [compress] on the same instance *)

(** C10.  [compress] writes the codes of the characters of its text into the
    dictionaries it finds: what [codes] held for a character that is not in
    the text, and what [reverse_codes] held for a string that is no code of
    a character of the text, is still there afterwards.  So after ["ab"] and
    then ["cde"] on one instance, [reverse_codes] still maps ["1"] to ["b"],
    and decompressing the bytes of the second text yields ["bebbe"]. *)
Theorem second_compress_keeps_entries :
  (∀ self text set_text,
     set_iteration text set_text → text ≠ [] →
     ∃ self' data,
       compress self text set_text = inr (self', data)
       ∧ (∀ c, c ∉ text → codes self' !! c = codes self !! c)
       ∧ (∀ code,
            (∀ c, c ∈ text → codes self' !! c ≠ Some code) →
            reverse_codes self' !! code = reverse_codes self !! code))
  ∧ ∃ self1 data1 self2 data2,
      compress FileCompression_init ["a"; "b"] ["a"; "b"] = inr (self1, data1)
      ∧ compress self1 ["c"; "d"; "e"] ["c"; "d"; "e"] = inr (self2, data2)
      ∧ reverse_codes self1 !! ["1"] = Some "b"
      ∧ reverse_codes self2 !! ["1"] = Some "b"
      ∧ codes self2 !! "b" = Some ["1"]
      ∧ decompress self2 data2 = inr ["b"; "e"; "b"; "b"; "e"]
      ∧ "b" ∉ ["c"; "d"; "e"].
Proof.
  split.
  - intros self text set_text Hset Hne.
    destruct (compress_spec text set_text Hset Hne self)
      as (root & data & E & Hinv & _ & Hnd & Hin & _).
    assert (Ht : huffman_tree root).
    { pose proof (forest_trees _ Hinv) as Htrees. by inversion Htrees. }
    eexists _, data. split; [exact E |].
    rewrite generate_codes_node_spec by done. cbn [codes reverse_codes]. split.
    + intros c Hc. apply lookup_record_all_notin. by rewrite <- Hin.
    + intros code Hcode. apply lookup_record_all_notin.
      rewrite prod_swap_fst.
      intros ([c code'] & -> & Hc)%list_elem_of_fmap. simpl in Hcode.
      apply (Hcode c).
      * apply Hin, list_elem_of_fmap. by exists (c, code').
      * by apply lookup_record_all_in.
  - eexists _, _, _, _. split; [reflexivity |]. split; [reflexivity |].
    split; [reflexivity |]. split; [reflexivity |]. split; [reflexivity |].
    split; [reflexivity |]. compute_done.
Qed.

(** ** The statements at the scenarios of the specification *)

(** The round trip of the scenario. *)
Lemma compress_decompress_roundtrip_scenario :
  ∃ self data,
    compress FileCompression_init scenario_text scenario_set = inr (self, data)
    ∧ decompress self data = inr scenario_text.
Proof.
  apply (compress_decompress_roundtrip scenario_text scenario_set).
  - apply set_iteration_check; compute_done.
  - exists "a", "b". compute_done.
Defined.

(** The code table of the scenario. *)
Lemma code_table_prefix_free_scenario :
  ∃ self data,
    compress FileCompression_init scenario_text scenario_set = inr (self, data)
    ∧ (∀ c, is_Some (codes self !! c) ↔ c ∈ scenario_text)
    ∧ (∀ a b code_a code_b,
         a ≠ b → codes self !! a = Some code_a → codes self !! b = Some code_b →
         ¬ code_a `prefix_of` code_b ∧ code_a ≠ code_b)
    ∧ (∀ c code,
         codes self !! c = Some code ↔ reverse_codes self !! code = Some c).
Proof.
  apply (code_table_prefix_free scenario_text scenario_set).
  - apply set_iteration_check; compute_done.
  - compute_done.
Defined.

(** The code lengths of the scenario. *)
Lemma code_length_monotone_scenario :
  ∃ self data,
    compress FileCompression_init scenario_text scenario_set = inr (self, data)
    ∧ ∀ a b code_a code_b,
        a ∈ scenario_text → b ∈ scenario_text →
        codes self !! a = Some code_a → codes self !! b = Some code_b →
        count scenario_text b < count scenario_text a →
        length code_a ≤ length code_b.
Proof.
  apply (code_length_monotone scenario_text scenario_set).
  - apply set_iteration_check; compute_done.
  - compute_done.
Defined.

(** The frequencies of the scenario: a 4, b 3, c 2, d 1. *)
Lemma frequency_dict_counts_scenario :
  _build_frequency_dict scenario_text scenario_set
    = [("a", 4); ("b", 3); ("c", 2); ("d", 1)]
  ∧ NoDup (_build_frequency_dict scenario_text scenario_set).*1
  ∧ (∀ c, c ∈ scenario_text
          ↔ c ∈ (_build_frequency_dict scenario_text scenario_set).*1)
  ∧ (∀ c n, (c, n) ∈ _build_frequency_dict scenario_text scenario_set →
            n = count scenario_text c)
  ∧ sum_list (_build_frequency_dict scenario_text scenario_set).*2
    = length scenario_text.
Proof.
  split; [reflexivity |].
  apply (frequency_dict_counts scenario_text scenario_set).
  apply set_iteration_check; compute_done.
Defined.

(** The empty text on a new instance. *)
Lemma compress_empty_IndexError_witness :
  set_iteration [] []
  ∧ compress FileCompression_init [] [] = inl IndexError.
Proof.
  assert (H : set_iteration [] []) by (apply set_iteration_check; compute_done).
  split; [exact H |].
  exact (compress_empty_IndexError FileCompression_init [] H).
Defined.

(** Two dictionaries with the counts 1, 1, 2 in this order. *)
Lemma tree_shape_from_insertion_order_witness :
  rmap shape (build_tree [("a", 1); ("b", 1); ("c", 2)])
  = rmap shape (build_tree [("c", 1); ("a", 1); ("b", 2)]).
Proof.
  apply (tree_shape_from_insertion_order
           [("a", 1); ("b", 1); ("c", 2)] [("c", 1); ("a", 1); ("b", 2)]).
  reflexivity.
Defined.

(** Characters that occur equally often may get codes of different
    lengths: in ["abc"], iterated as a, b, c, the code of c has one bit and
    the code of a has two. *)
Example equal_counts_different_lengths :
  ∃ self data,
    compress FileCompression_init ["a"; "b"; "c"] ["a"; "b"; "c"]
      = inr (self, data)
    ∧ count ["a"; "b"; "c"] "a" = count ["a"; "b"; "c"] "c"
    ∧ codes self !! "a" = Some ["1"; "0"]
    ∧ codes self !! "c" = Some ["0"].
Proof. eexists _, _. repeat split; reflexivity. Qed.


(** * Further properties of the code *)

(** ** The heap and the tree *)

(** X1.  [_build_heap] never fails: it yields one childless node per entry
    of the frequency dictionary, arranged as a heap on the frequencies, so
    that the first node is one of least frequency. *)
Theorem build_heap_min_heap freq_dict :
  ∃ heap,
    _build_heap freq_dict = inr heap
    ∧ heap ≡ₚ (λ e, new_node (Some e.1) e.2) <$> freq_dict
    ∧ is_heap heap
    ∧ ∀ x y, heap !! 0 = Some x → y ∈ heap → freq x ≤ freq y.
Proof.
  destruct (build_heap_spec freq_dict) as (heap & E & Hh & Hp).
  exists heap. do 3 (split; [done |]).
  intros x y Hx [i Hy]%list_elem_of_lookup. by apply (is_heap_root heap x y i).
Qed.

Lemma huffman_tree_freq t :
  huffman_tree t → freq t = sum_list (symbol_freqs t).*2.
Proof.
  induction 1 as [c f | l r Hl IHl Hr IHr]; [simpl; lia |].
  cbn [merged freq symbol_freqs]. rewrite app_nil_l, fmap_app, sum_list_with_app.
  by rewrite IHl, IHr.
Qed.

(** X2.  [_build_heap] followed by [_build_huffman_tree] raises [IndexError]
    on the empty dictionary and on no other: otherwise the root is a tree
    whose nodes with a character are childless and are the entries of the
    dictionary, whose other nodes have two children and the sum of their
    frequencies, and whose own frequency is the sum of all counts. *)
Theorem build_tree_outcome freq_dict :
  (freq_dict = [] ∧ build_tree freq_dict = inl IndexError)
  ∨ ∃ root,
      build_tree freq_dict = inr root
      ∧ huffman_tree root
      ∧ symbol_freqs root ≡ₚ freq_dict
      ∧ freq root = sum_list freq_dict.*2.
Proof.
  destruct freq_dict as [| e freq_dict]; [by left | right].
  destruct (build_tree_spec (e :: freq_dict)) as (heap & root & Eh & Er & Hinv & Hsym);
    [done |].
  assert (Ht : huffman_tree root).
  { pose proof (forest_trees _ Hinv) as Htrees. by inversion Htrees. }
  exists root. split; [unfold build_tree; by rewrite Eh |].
  split; [done |]. split; [done |].
  by rewrite (huffman_tree_freq root Ht), Hsym.
Qed.

(** ** Encoding *)

(** X3.  [_encode_text] raises [KeyError] exactly when a character of the
    text has no entry in [self.codes]; otherwise it returns the codes of the
    characters, concatenated in the order of the text. *)
Theorem encode_text_outcome self text :
  _encode_text self text =
    if decide (Forall (λ c, is_Some (codes self !! c)) text)
    then inr (text ≫= code_of self)
    else inl KeyError.
Proof.
  case_decide as Hall.
  - apply encode_text_spec. by apply Forall_forall.
  - induction text as [| c text IH]; [by destruct Hall |].
    cbn [_encode_text]. destruct (codes self !! c) as [code |] eqn:Hc; [| done].
    result_simpl. rewrite IH; [done |].
    intros Htext. apply Hall. by constructor.
Qed.

Lemma sum_weighted_indicator (f : ascii → nat) c chars :
  NoDup chars → c ∈ chars →
  sum_list ((λ x, (if decide (c = x) then 1 else 0) * f x) <$> chars) = f c.
Proof.
  induction 1 as [| x chars Hx Hnd IH]; [by intros ?%elem_of_nil |].
  intros Hc. rewrite fmap_cons. cbn [sum_list_with]. unfold id at 1.
  case_decide as Hcx.
  - subst x. assert (sum_list ((λ x, (if decide (c = x) then 1 else 0) * f x)
                                 <$> chars) = 0) as ->; [| lia].
    clear IH Hc Hnd. induction chars as [| y chars IH]; [done |].
    apply not_elem_of_cons in Hx as [Hne Hx]. rewrite fmap_cons.
    cbn [sum_list_with]. rewrite decide_False by done. by rewrite IH.
  - apply elem_of_cons in Hc as [-> | Hc]; [done |]. rewrite IH by done. lia.
Qed.

(** A sum over the characters of a text, taken character by character or
    distinct character by distinct character. *)
Lemma sum_by_counts (f : ascii → nat) text chars :
  NoDup chars → (∀ c, c ∈ text → c ∈ chars) →
  sum_list (f <$> text) = sum_list ((λ c, count text c * f c) <$> chars).
Proof.
  intros Hnd. induction text as [| c text IH]; intros Hsub.
  - clear Hnd Hsub. induction chars as [| x chars IHc]; [done |].
    rewrite fmap_cons. cbn [sum_list_with]. by rewrite <- IHc.
  - rewrite fmap_cons. cbn [sum_list_with]. unfold id at 1.
    rewrite IH by (intros; apply Hsub; by right).
    rewrite <- (sum_weighted_indicator f c chars Hnd) at 1
      by (apply Hsub; by left).
    rewrite <- (sum_list_fmap_add
                  (λ x, (if decide (c = x) then 1 else 0) * f x)
                  (λ x, count text x * f x)).
    f_equal. apply list_fmap_ext. intros _ x _. rewrite count_cons. lia.
Qed.

Lemma length_bind {A B} (f : A → list B) l :
  length (l ≫= f) = sum_list ((λ x, length (f x)) <$> l).
Proof.
  induction l as [| x l IH]; [done |].
  rewrite bind_cons, length_app, fmap_cons, IH. done.
Qed.

Lemma encode_text_inr self text : ∀ encoded_text,
  _encode_text self text = inr encoded_text →
  encoded_text = text ≫= code_of self.
Proof.
  induction text as [| c text IH]; intros enc; cbn [_encode_text].
  { by intros [= <-]. }
  rewrite bind_cons. unfold code_of at 1.
  destruct (codes self !! c) as [code |]; [| done]. result_simpl.
  destruct (_encode_text self text) as [e | rest]; [done |].
  result_simpl. intros [= <-]. by rewrite <- (IH rest).
Qed.

(** X4.  The number of digits [_encode_text] returns is the sum, over the
    distinct characters of the text, of the number of occurrences times the
    length of the code. *)
Theorem encode_text_length self text set_text encoded_text :
  set_iteration text set_text →
  _encode_text self text = inr encoded_text →
  length encoded_text
  = sum_list ((λ c, count text c * length (code_of self c)) <$> set_text).
Proof.
  intros [Hnd Hset] Henc. apply encode_text_inr in Henc as ->.
  rewrite length_bind. apply sum_by_counts; [done |]. intros c. apply Hset.
Qed.

(** The codes 0 for a and 1 for b, and the text ["abab"]. *)
Lemma encode_text_length_witness :
  length ["0"; "1"; "0"; "1"]
  = sum_list
      ((λ c, count ["a"; "b"; "a"; "b"] c
             * length (code_of {| codes := <["a" := ["0"]]> {["b" := ["1"]]};
                                  reverse_codes := ∅ |} c))
         <$> ["a"; "b"]).
Proof.
  apply (encode_text_length _ ["a"; "b"; "a"; "b"] ["a"; "b"]).
  - apply set_iteration_check; compute_done.
  - reflexivity.
Defined.

(** ** Padding and bytes *)

(** X5.  [_remove_padding] undoes [_add_padding], on every string. *)
Theorem remove_padding_add_padding encoded_text :
  _remove_padding (_add_padding encoded_text) = inr encoded_text.
Proof. apply remove_add_padding. Qed.

(** X6.  A string of binary digits whose length is a multiple of 8 is
    converted to one byte per 8 digits, and the loop of [decompress] reads
    these bytes back as the same digits. *)
Theorem convert_to_bytes_read_back padded_encoded_text :
  Forall is_bit padded_encoded_text →
  length padded_encoded_text `mod` 8 = 0 →
  ∃ byte_data,
    _convert_to_bytes padded_encoded_text = inr byte_data
    ∧ read_bits byte_data = padded_encoded_text
    ∧ length byte_data = length padded_encoded_text `div` 8.
Proof.
  intros Hbits Hlen.
  destruct (convert_read padded_encoded_text Hbits Hlen) as (data & E & Hd).
  exists data. split; [done |]. split; [done |].
  rewrite <- Hd. clear. induction data as [| b data IH]; [done |].
  rewrite read_bits_cons, length_app, format_08b_byte_length. simpl. lia.
Qed.

(** The digits 00000001 11111111. *)
Lemma convert_to_bytes_read_back_witness :
  ∃ byte_data,
    _convert_to_bytes (replicate 7 "0" ++ replicate 9 "1") = inr byte_data
    ∧ read_bits byte_data = replicate 7 "0" ++ replicate 9 "1"
    ∧ length byte_data = length (replicate 7 "0" ++ replicate 9 "1") `div` 8.
Proof.
  apply (convert_to_bytes_read_back (replicate 7 "0" ++ replicate 9 "1")).
  - compute_done.
  - reflexivity.
Defined.

Lemma read_bits_inj data1 : ∀ data2,
  read_bits data1 = read_bits data2 → data1 = data2.
Proof.
  assert (Hlen : ∀ data, length (read_bits data) = length data * 8).
  { induction data as [| b data IH]; [done |].
    rewrite read_bits_cons, length_app, format_08b_byte_length, IH. simpl. lia. }
  induction data1 as [| b1 data1 IH]; intros [| b2 data2] Heq.
  - done.
  - apply (f_equal length) in Heq. rewrite !Hlen in Heq. simpl in Heq. lia.
  - apply (f_equal length) in Heq. rewrite !Hlen in Heq. simpl in Heq. lia.
  - rewrite !read_bits_cons in Heq.
    apply app_inj_1 in Heq as [Hb Hrest];
      [| by rewrite !format_08b_byte_length].
    f_equal; [| by apply IH].
    apply (f_equal int2) in Hb. rewrite !int2_format_08b in Hb.
    injection Hb as Hb. apply (f_equal Byte.of_N) in Hb.
    rewrite !Byte.of_to_N in Hb. by injection Hb.
Qed.

(** X7.  The digits that the loop of [decompress] reads from a byte buffer
    are converted by [_convert_to_bytes] to that buffer again. *)
Theorem read_bits_convert_back byte_data :
  _convert_to_bytes (read_bits byte_data) = inr byte_data.
Proof.
  destruct (convert_read (read_bits byte_data)) as (data & E & Hd).
  - clear. induction byte_data as [| b data IH]; [constructor |].
    rewrite read_bits_cons. apply Forall_app.
    split; [apply format_08b_bits | done].
  - clear. induction byte_data as [| b data IH]; [done |].
    rewrite read_bits_cons, length_app, format_08b_byte_length. lia.
  - apply read_bits_inj in Hd. by subst data.
Qed.

Lemma bits_value_bound s : (bits_value s < 2 ^ N.of_nat (length s))%N.
Proof.
  induction s as [| c s IH] using rev_ind; [done |].
  rewrite bits_value_snoc, length_app, Nat.add_1_r, Nat2N.inj_succ,
    N.pow_succ_r'.
  case_decide; lia.
Qed.

Lemma mapM_result_success {A B} (f : A → result B) l :
  (∀ x, x ∈ l → ∃ y, f x = inr y) →
  ∃ k, mapM f l = inr k ∧ length k = length l.
Proof.
  induction l as [| x l IH]; intros Hf; [by exists [] |].
  destruct (Hf x) as [y Hy]; [by left |].
  destruct IH as (k & Hk & Hlen); [intros; apply Hf; by right |].
  exists (y :: k). cbn [mapM]. rewrite Hy. result_simpl. rewrite Hk.
  split; [done |]. simpl. by rewrite Hlen.
Qed.

(** X8.  [_convert_to_bytes] does not fail on a string of binary digits,
    whatever its length: it yields one byte per started group of 8 digits
    (a last group of fewer digits becomes a byte too). *)
Theorem convert_to_bytes_succeeds padded_encoded_text :
  Forall is_bit padded_encoded_text →
  ∃ byte_data,
    _convert_to_bytes padded_encoded_text = inr byte_data
    ∧ length byte_data = (length padded_encoded_text + 7) `div` 8.
Proof.
  intros Hbits. unfold _convert_to_bytes.
  destruct (mapM_result_success
    (λ i, n ← int2 (slice padded_encoded_text i (i + 8));
          match Byte.of_N n with
          | Some b => mret b
          | None => raise ValueError
          end)
    (range_step (length padded_encoded_text) 8)) as (data & E & Hlen).
  - intros i (k & -> & Hk)%list_elem_of_fmap.
    apply elem_of_seq in Hk.
    set (chunk := slice padded_encoded_text (k * 8) (k * 8 + 8)).
    assert (Hcb : Forall is_bit chunk).
    { unfold chunk, slice. by apply Forall_take, Forall_drop. }
    assert (Hcl : 0 < length chunk ≤ 8).
    { unfold chunk, slice. rewrite length_take, length_drop. lia. }
    rewrite int2_bits; [| done | by intros Hnil; rewrite Hnil in Hcl; simpl in Hcl; lia].
    result_simpl.
    destruct (Byte.of_N (bits_value chunk)) as [b |] eqn:Hb; [by exists b |].
    apply Byte.of_N_None_iff in Hb.
    pose proof (bits_value_bound chunk) as Hbound.
    assert (2 ^ N.of_nat (length chunk) ≤ 2 ^ 8)%N
      by (apply N.pow_le_mono_r; lia).
    change (2 ^ 8)%N with 256%N in *. lia.
  - exists data. split; [done |]. rewrite Hlen. unfold range_step.
    rewrite length_fmap, length_seq. f_equal. lia.
Qed.

(** Twelve digits: two bytes. *)
Lemma convert_to_bytes_succeeds_witness :
  ∃ byte_data,
    _convert_to_bytes (replicate 12 "1") = inr byte_data
    ∧ length byte_data = (length (replicate 12 "1") + 7) `div` 8.
Proof.
  apply (convert_to_bytes_succeeds (replicate 12 "1")). compute_done.
Defined.

(** ** Decoding *)

(** X9.  With dictionaries in which the code of every character leads back
    to it and is not empty, and in which no key of [reverse_codes] is a proper
    prefix of a code, [_decode_text] undoes [_encode_text] on every text
    whose characters have codes, whether [compress] made the dictionaries or
    not. *)
Theorem decode_text_encode_text self text :
  decodable self →
  (∀ c, c ∈ text → is_Some (codes self !! c)) →
  ∃ encoded_text,
    _encode_text self text = inr encoded_text
    ∧ _decode_text self encoded_text = text.
Proof.
  intros Hdec Hc. exists (text ≫= code_of self).
  split; [by apply encode_text_spec | by apply decode_text_spec].
Qed.

(** [decodable], in a form that can be computed on given dictionaries. *)
Lemma decodable_check self :
  map_Forall (λ c code,
      reverse_codes self !! code = Some c ∧ code ≠ []
      ∧ map_Forall (λ p _, p `prefix_of` code → p = code) (reverse_codes self))
    (codes self) →
  decodable self.
Proof.
  intros Hall. split.
  - intros c code Hc. by destruct (Hall c code Hc) as (? & ? & _).
  - intros c code p Hc Hpre [c' Hp].
    destruct (Hall c code Hc) as (_ & _ & Hrev). by apply (Hrev p c').
Qed.

(** The codes 0 for a, 10 for b and 11 for c, and the text ["abca"]. *)
Lemma decode_text_encode_text_witness :
  ∃ encoded_text,
    _encode_text
      {| codes := <["a" := ["0"]]> (<["b" := ["1"; "0"]]> {["c" := ["1"; "1"]]});
         reverse_codes :=
           <[["0"] := "a"]> (<[["1"; "0"] := "b"]> {[["1"; "1"] := "c"]}) |}
      ["a"; "b"; "c"; "a"] = inr encoded_text
    ∧ _decode_text
        {| codes := <["a" := ["0"]]> (<["b" := ["1"; "0"]]> {["c" := ["1"; "1"]]});
           reverse_codes :=
             <[["0"] := "a"]> (<[["1"; "0"] := "b"]> {[["1"; "1"] := "c"]}) |}
        encoded_text = ["a"; "b"; "c"; "a"].
Proof.
  apply decode_text_encode_text.
  - apply decodable_check. compute_done.
  - apply Forall_forall. compute_done.
Defined.

Lemma decode_fold_within self bit_string : ∀ current_code decoded_text,
  ∃ emitted,
    (foldl (decode_step self) (current_code, decoded_text) bit_string).2
      = decoded_text ++ emitted
    ∧ length emitted ≤ length bit_string
    ∧ ∀ c, c ∈ emitted →
        ∃ code, code ≠ [] ∧ reverse_codes self !! code = Some c.
Proof.
  induction bit_string as [| bit bits IH]; intros cur out.
  - exists []. rewrite app_nil_r. split; [done |]. split; [done |].
    by intros c ?%elem_of_nil.
  - cbn [foldl decode_step].
    destruct (reverse_codes self !! (cur ++ [bit])) as [v |] eqn:Hv.
    + destruct (IH [] (out ++ [v])) as (emitted & -> & Hlen & Hval).
      exists (v :: emitted). rewrite <- app_assoc. split; [done |].
      split; [simpl; lia |].
      intros c [-> | Hc]%elem_of_cons; [| by apply Hval].
      exists (cur ++ [bit]). split; [| done]. by intros [_ ?]%app_eq_nil.
    + destruct (IH (cur ++ [bit]) out) as (emitted & -> & Hlen & Hval).
      exists emitted. split; [done |]. split; [simpl; lia | done].
Qed.

(** X10.  Whatever the dictionaries and the digits, [_decode_text] returns
    at most one character per digit, and every character it returns is the
    entry of [reverse_codes] for some non-empty string. *)
Theorem decode_text_within self bit_string :
  length (_decode_text self bit_string) ≤ length bit_string
  ∧ ∀ c, c ∈ _decode_text self bit_string →
      ∃ code, code ≠ [] ∧ reverse_codes self !! code = Some c.
Proof.
  unfold _decode_text.
  by destruct (decode_fold_within self bit_string [] [])
    as (emitted & -> & Hlen & Hval).
Qed.

(** ** [compress] and the state of the instance *)

Lemma bind_ext_in {A B} (f g : A → list B) l :
  (∀ x, x ∈ l → f x = g x) → l ≫= f = l ≫= g.
Proof.
  induction l as [| x l IH]; intros Hfg; [done |].
  rewrite !bind_cons, IH by (intros; apply Hfg; by right).
  by rewrite Hfg by by left.
Qed.

Lemma record_all_twice `{Countable K} {V} (m : gmap K V) l :
  NoDup l.*1 → record_all (record_all m l) l = record_all m l.
Proof.
  intros Hnd. apply map_eq. intros k.
  destruct (decide (k ∈ l.*1)) as [Hk | Hk].
  - apply list_elem_of_fmap in Hk as ([k' v] & -> & Hk).
    by rewrite !(lookup_record_all_in l _ k' v).
  - by rewrite !lookup_record_all_notin.
Qed.

(** The tree and the bytes of [compress] depend on the text and on the
    iteration order only; the state the instance had is passed on to
    [_generate_codes]. *)
Lemma compress_uniform text set_text :
  set_iteration text set_text → text ≠ [] →
  ∃ root data,
    build_tree (_build_frequency_dict text set_text) = inr root
    ∧ huffman_tree root
    ∧ symbol_freqs root ≡ₚ _build_frequency_dict text set_text
    ∧ NoDup (code_list root []).*1
    ∧ (∀ c, c ∈ text ↔ c ∈ (code_list root []).*1)
    ∧ (∀ self c code,
         (c, code) ∈ code_list root [] →
         code_of (generate_codes_node self root []) c = code)
    ∧ (∀ self,
         read_bits data
         = _add_padding (text ≫= code_of (generate_codes_node self root [])))
    ∧ ∀ self,
        compress self text set_text
        = inr (generate_codes_node self root [], data).
Proof.
  intros Hset Hne. pose proof Hset as [Hnd Hchars].
  destruct (build_tree_spec (_build_frequency_dict text set_text))
    as (heap & root & Eh & Er & Hinv & Hsym).
  { destruct text as [| c text']; [done |].
    assert (Hc : c ∈ set_text) by (apply Hchars; by left).
    intros Hnil. apply (f_equal (fmap fst)) in Hnil.
    rewrite frequency_dict_keys in Hnil. rewrite Hnil in Hc.
    by apply elem_of_nil in Hc. }
  assert (Ht : huffman_tree root).
  { pose proof (forest_trees _ Hinv) as Htrees. by inversion Htrees. }
  assert (Hkeys : (code_list root []).*1 ≡ₚ set_text).
  { rewrite code_list_symbols by done. by rewrite Hsym, frequency_dict_keys. }
  assert (Hnd' : NoDup (code_list root []).*1) by by rewrite Hkeys.
  assert (Hin : ∀ c, c ∈ text ↔ c ∈ (code_list root []).*1).
  { intros c. by rewrite Hkeys, Hchars. }
  assert (Hcode : ∀ self c code,
    (c, code) ∈ code_list root [] →
    code_of (generate_codes_node self root []) c = code).
  { intros self c code Hc. unfold code_of.
    by destruct (generate_codes_lookup self root c code Ht Hnd' Hc) as [-> _]. }
  assert (Hsame : ∀ self,
    text ≫= code_of (generate_codes_node self root [])
    = text ≫= code_of (generate_codes_node FileCompression_init root [])).
  { intros self. apply bind_ext_in. intros c Hc.
    apply Hin, list_elem_of_fmap in Hc as ([c' code] & -> & Hc).
    by rewrite !(Hcode _ c' code). }
  set (enc := text ≫= code_of (generate_codes_node FileCompression_init root [])).
  assert (Hbits : Forall is_bit enc).
  { apply Forall_bind, Forall_forall. intros c Hc.
    apply Hin, list_elem_of_fmap in Hc as ([c' code] & -> & Hc).
    unfold compose. rewrite (Hcode _ c' code Hc).
    by apply (code_list_bits root Ht [] c'). }
  destruct (convert_read (_add_padding enc)) as (data & Ed & Hd);
    [by apply add_padding_bits | apply add_padding_length |].
  exists root, data.
  split; [unfold build_tree; by rewrite Eh |].
  do 5 (split; [done |]). split; [intros self; by rewrite Hsame |].
  intros self. unfold compress. rewrite Eh. result_simpl. rewrite Er.
  result_simpl. cbn [_generate_codes]. rewrite encode_text_spec.
  - result_simpl. rewrite Hsame. fold enc. by rewrite Ed.
  - intros c Hc. apply Hin, list_elem_of_fmap in Hc as ([c' code] & -> & Hc).
    exists code. by apply generate_codes_lookup.
Qed.

(** X11.  On a non-empty text [compress] succeeds whatever the dictionaries
    of the instance hold, and the bytes it yields are the same for every
    such state. *)
Theorem compress_bytes_any_state text set_text :
  set_iteration text set_text → text ≠ [] →
  ∃ byte_data, ∀ self, ∃ self',
    compress self text set_text = inr (self', byte_data).
Proof.
  intros Hset Hne.
  destruct (compress_uniform text set_text Hset Hne)
    as (root & data & _ & _ & _ & _ & _ & _ & _ & E).
  exists data. intros self. eexists. apply E.
Qed.

(** X12.  A second [compress] of the same text on the same instance, with
    the characters iterated in the same order, changes nothing: it leaves
    the dictionaries as the first call left them and yields the same
    bytes. *)
Theorem compress_twice self text set_text :
  set_iteration text set_text → text ≠ [] →
  ∃ self' byte_data,
    compress self text set_text = inr (self', byte_data)
    ∧ compress self' text set_text = inr (self', byte_data).
Proof.
  intros Hset Hne.
  destruct (compress_uniform text set_text Hset Hne)
    as (root & data & _ & Ht & _ & Hnd & _ & _ & _ & E).
  exists (generate_codes_node self root []), data. split; [apply E |].
  rewrite E. do 2 f_equal.
  rewrite !generate_codes_node_spec by done. cbn [codes reverse_codes].
  rewrite !record_all_twice; [done | | done].
  rewrite prod_swap_fst. by apply code_list_NoDup_codes.
Qed.

(** X13.  After [compress], whatever the dictionaries held before: every
    character of the text has a code of binary digits, [reverse_codes] leads
    from that code back to the character, and among the characters of the
    text no code is a prefix of the code of another. *)
Theorem compress_entries_of_text self text set_text :
  set_iteration text set_text → text ≠ [] →
  ∃ self' byte_data,
    compress self text set_text = inr (self', byte_data)
    ∧ (∀ c, c ∈ text →
         ∃ code, codes self' !! c = Some code
                 ∧ reverse_codes self' !! code = Some c
                 ∧ Forall is_bit code)
    ∧ ∀ a b code_a code_b,
        a ∈ text → b ∈ text → a ≠ b →
        codes self' !! a = Some code_a → codes self' !! b = Some code_b →
        ¬ code_a `prefix_of` code_b.
Proof.
  intros Hset Hne.
  destruct (compress_uniform text set_text Hset Hne)
    as (root & data & _ & Ht & _ & Hnd & Hin & _ & _ & E).
  exists (generate_codes_node self root []), data. split; [apply E |].
  assert (Hentry : ∀ c, c ∈ text →
    ∃ code, (c, code) ∈ code_list root []
            ∧ codes (generate_codes_node self root []) !! c = Some code
            ∧ reverse_codes (generate_codes_node self root []) !! code = Some c).
  { intros c Hc. apply Hin, list_elem_of_fmap in Hc as ([c' code] & -> & Hc).
    exists code. split; [done |]. by apply generate_codes_lookup. }
  split.
  - intros c Hc. destruct (Hentry c Hc) as (code & Hcl & Hcode & Hrev).
    exists code. split; [done |]. split; [done |].
    by apply (code_list_bits root Ht [] c).
  - intros a b code_a code_b Ha Hb Hab Hca Hcb Hpre.
    destruct (Hentry a Ha) as (code_a' & Hla & Hca' & _).
    destruct (Hentry b Hb) as (code_b' & Hlb & Hcb' & _).
    assert (code_a' = code_a) as -> by congruence.
    assert (code_b' = code_b) as -> by congruence.
    apply Hab.
    by injection (code_list_prefix_free root Ht [] _ _ Hla Hlb Hpre).
Qed.

Lemma read_bits_length data : length (read_bits data) = 8 * length data.
Proof.
  induction data as [| b data IH]; [done |].
  rewrite read_bits_cons, length_app, format_08b_byte_length.
  cbn [length]. lia.
Qed.

(** X14.  The bytes of [compress]: with [n] the number of digits of the
    encoded text (occurrences times code length, summed over the distinct
    characters), there are [n // 8 + 2] bytes, and the first is the padding
    count [8 - n % 8]. *)
Theorem compress_size self text set_text :
  set_iteration text set_text → text ≠ [] →
  ∃ self' byte_data,
    compress self text set_text = inr (self', byte_data)
    ∧ ∃ n,
        n = sum_list
              ((λ c, count text c * length (code_of self' c)) <$> set_text)
        ∧ length byte_data = n `div` 8 + 2
        ∧ Byte.to_N <$> head byte_data = Some (N.of_nat (8 - n `mod` 8)).
Proof.
  intros Hset Hne.
  destruct (compress_uniform text set_text Hset Hne)
    as (root & data & _ & _ & _ & _ & _ & _ & Hread & E).
  exists (generate_codes_node self root []), data. split; [apply E |].
  specialize (Hread self). set (self' := generate_codes_node self root []) in *.
  eexists. split; [done |].
  assert (Hlen : length (text ≫= code_of self')
    = sum_list ((λ c, count text c * length (code_of self' c)) <$> set_text)).
  { rewrite length_bind. destruct Hset as [Hnd Hchars].
    apply sum_by_counts; [done |]. intros c. apply Hchars. }
  rewrite <- Hlen. clear Hlen.
  pose proof (f_equal length Hread) as HL. rewrite read_bits_length in HL.
  unfold _add_padding in HL.
  rewrite !length_app, length_replicate, format_08b_small_length in HL by lia.
  split; [lia |].
  destruct data as [| b data]; [simpl in HL; lia |].
  cbn [head fmap option_fmap option_map]. f_equal.
  rewrite read_bits_cons in Hread. unfold _add_padding in Hread.
  apply app_inj_1 in Hread as [Hb _].
  - apply (f_equal int2) in Hb. rewrite !int2_format_08b in Hb. congruence.
  - by rewrite format_08b_byte_length, format_08b_small_length by lia.
Qed.

Lemma symbol_freqs_nonempty t : huffman_tree t → 1 ≤ length (symbol_freqs t).
Proof.
  induction 1 as [c f | l r Hl IHl Hr IHr]; [done |].
  simpl. rewrite length_app. lia.
Qed.

Lemma code_list_length_bound t : huffman_tree t → ∀ code c code',
  (c, code') ∈ code_list t code →
  length code' + 1 ≤ length code + length (symbol_freqs t).
Proof.
  induction 1 as [c0 f0 | l r Hl IHl Hr IHr]; intros code c code'; simpl.
  - rewrite list_elem_of_singleton. intros [= -> ->]. lia.
  - pose proof (symbol_freqs_nonempty l Hl).
    pose proof (symbol_freqs_nonempty r Hr).
    rewrite elem_of_app, length_app.
    intros [Hc%IHl | Hc%IHr]; rewrite length_app in Hc; simpl in Hc; lia.
Qed.

(** X15.  After [compress] the code of every character of the text has
    fewer digits than the text has distinct characters, and at least one
    digit when the text has two distinct characters or more. *)
Theorem code_length_bounds self text set_text :
  set_iteration text set_text → text ≠ [] →
  ∃ self' byte_data,
    compress self text set_text = inr (self', byte_data)
    ∧ ∀ c, c ∈ text →
        length (code_of self' c) < length set_text
        ∧ (2 ≤ length set_text → 1 ≤ length (code_of self' c)).
Proof.
  intros Hset Hne.
  destruct (compress_uniform text set_text Hset Hne)
    as (root & data & _ & Ht & Hsym & _ & Hin & Hcode & _ & E).
  exists (generate_codes_node self root []), data. split; [apply E |].
  assert (Hlen : length (symbol_freqs root) = length set_text).
  { rewrite Hsym.
    rewrite <- (length_fmap fst (_build_frequency_dict text set_text)).
    by rewrite frequency_dict_keys. }
  intros c Hc. apply Hin, list_elem_of_fmap in Hc as ([c' code] & -> & Hc).
  cbn [fst]. rewrite (Hcode self c' code Hc). split.
  - pose proof (code_list_length_bound root Ht [] c' code Hc) as Hb.
    simpl in Hb. lia.
  - intros Htwo. destruct Ht as [c0 f0 | l r Hl Hr].
    + simpl in Hlen. lia.
    + pose proof (code_list_merged_nonempty l r c' code Hl Hr Hc).
      destruct code; [done | simpl; lia].
Qed.

(** ** [main] *)

Lemma set_iteration_singleton text c :
  set_iteration text [c] → ∃ n, text = replicate (S n) c.
Proof.
  intros [_ Hchars].
  assert (Hall : ∀ x, x ∈ text → x = c).
  { intros x Hx. by apply Hchars, list_elem_of_singleton in Hx. }
  assert (Hin : c ∈ text) by (apply Hchars; by left).
  destruct text as [| x text]; [by apply elem_of_nil in Hin |].
  exists (length text). clear Hin Hchars.
  change (x :: text = replicate (length (x :: text)) c).
  induction (x :: text) as [| y l IH]; [done |].
  cbn [length replicate]. f_equal.
  - apply Hall. by left.
  - apply IH. intros z Hz. apply Hall. by right.
Qed.

(** X16.  What [main] writes as decompressed text for a text read: nothing,
    as [compress] raises [IndexError], when the text is empty; the empty
    text when the text repeats one character; the text itself when it has
    two distinct characters or more. *)
Theorem main_outcome text set_text :
  set_iteration text set_text →
  main text set_text
  = match set_text with
    | [] => inl IndexError
    | [_] => inr []
    | _ => inr text
    end.
Proof.
  intros Hset. destruct set_text as [| a [| b set_text']].
  - assert (text = []) as ->.
    { destruct text as [| c text]; [done |]. exfalso.
      apply (elem_of_nil c), Hset. by left. }
    done.
  - destruct (set_iteration_singleton text a Hset) as [n ->].
    destruct (single_symbol_text_lost a n) as (self & E & _ & Ed).
    unfold main. rewrite E. result_simpl. done.
  - assert (Hne : text ≠ []).
    { intros ->. by apply set_iteration_nil in Hset. }
    destruct (compress_init_spec text _ Hset Hne)
      as (root & self & data & E & Hinv & Hsym & Hin & Hcodes & Hrev & Hd).
    assert (Ht : huffman_tree root).
    { pose proof (forest_trees _ Hinv) as Htrees. by inversion Htrees. }
    assert (Hnonempty : ∀ c code, (c, code) ∈ code_list root [] → code ≠ []).
    { destruct Ht as [c0 f0 | l r Hl Hr].
      - apply Permutation_length in Hsym.
        rewrite <- (length_fmap fst (_build_frequency_dict _ _)) in Hsym.
        by rewrite frequency_dict_keys in Hsym.
      - intros c code. by apply code_list_merged_nonempty. }
    assert (Hdec : decodable self).
    { split.
      - intros c code Hc%Hcodes.
        split; [by apply Hrev | by apply (Hnonempty c)].
      - intros c code p Hc%Hcodes Hpre [c' Hp%Hrev].
        by injection (code_list_prefix_free root Ht [] _ _ Hp Hc Hpre). }
    unfold main. rewrite E. result_simpl.
    unfold decompress. rewrite Hd, remove_add_padding. result_simpl.
    rewrite decode_text_spec; [done | done |].
    intros c Hc. apply Hin, list_elem_of_fmap in Hc as ([c' code] & -> & Hc).
    exists code. by apply Hcodes.
Qed.

(** ** The scenario *)

Lemma compress_bytes_any_state_scenario :
  ∃ byte_data, ∀ self, ∃ self',
    compress self scenario_text scenario_set = inr (self', byte_data).
Proof.
  apply (compress_bytes_any_state scenario_text scenario_set).
  - apply set_iteration_check; compute_done.
  - compute_done.
Defined.

Lemma compress_twice_scenario :
  ∃ self' byte_data,
    compress FileCompression_init scenario_text scenario_set
      = inr (self', byte_data)
    ∧ compress self' scenario_text scenario_set = inr (self', byte_data).
Proof.
  apply (compress_twice FileCompression_init scenario_text scenario_set).
  - apply set_iteration_check; compute_done.
  - compute_done.
Defined.

Lemma compress_entries_of_text_scenario :
  ∃ self' byte_data,
    compress FileCompression_init scenario_text scenario_set
      = inr (self', byte_data)
    ∧ (∀ c, c ∈ scenario_text →
         ∃ code, codes self' !! c = Some code
                 ∧ reverse_codes self' !! code = Some c
                 ∧ Forall is_bit code)
    ∧ ∀ a b code_a code_b,
        a ∈ scenario_text → b ∈ scenario_text → a ≠ b →
        codes self' !! a = Some code_a → codes self' !! b = Some code_b →
        ¬ code_a `prefix_of` code_b.
Proof.
  apply (compress_entries_of_text
           FileCompression_init scenario_text scenario_set).
  - apply set_iteration_check; compute_done.
  - compute_done.
Defined.

Lemma compress_size_scenario :
  ∃ self' byte_data,
    compress FileCompression_init scenario_text scenario_set
      = inr (self', byte_data)
    ∧ ∃ n,
        n = sum_list
              ((λ c, count scenario_text c * length (code_of self' c))
                 <$> scenario_set)
        ∧ length byte_data = n `div` 8 + 2
        ∧ Byte.to_N <$> head byte_data = Some (N.of_nat (8 - n `mod` 8)).
Proof.
  apply (compress_size FileCompression_init scenario_text scenario_set).
  - apply set_iteration_check; compute_done.
  - compute_done.
Defined.

Lemma code_length_bounds_scenario :
  ∃ self' byte_data,
    compress FileCompression_init scenario_text scenario_set
      = inr (self', byte_data)
    ∧ ∀ c, c ∈ scenario_text →
        length (code_of self' c) < length scenario_set
        ∧ (2 ≤ length scenario_set → 1 ≤ length (code_of self' c)).
Proof.
  apply (code_length_bounds FileCompression_init scenario_text scenario_set).
  - apply set_iteration_check; compute_done.
  - compute_done.
Defined.

Lemma main_outcome_scenario :
  main scenario_text scenario_set = inr scenario_text.
Proof.
  apply (main_outcome scenario_text scenario_set).
  apply set_iteration_check; compute_done.
Defined.

(** ** The encoded text is as short as a prefix code allows *)

#[local] Instance tree_depths_Permutation :
  Proper ((≡ₚ) ==> iff) tree_depths.
Proof. intros l l' Hp. split; apply depths_perm; [done | by symmetry]. Qed.

Lemma tree_depths_singleton l : tree_depths l → ∀ d, l = [d] → d = 0.
Proof.
  induction 1 as [| d l _ _ | l l' Hp _ IH]; intros d' E.
  - by injection E.
  - done.
  - subst l'. apply Permutation_singleton_r in Hp. by apply IH.
Qed.

(** Two of the deepest leaves are the children of one node. *)
Lemma tree_depths_deepest l :
  tree_depths l → 2 ≤ length l →
  ∃ D l', l ≡ₚ S D :: S D :: l' ∧ tree_depths (D :: l')
          ∧ Forall (λ d, d ≤ S D) l.
Proof.
  induction 1 as [| d l H IH | l l' Hp _ IH]; intros Hlen.
  - simpl in Hlen. lia.
  - destruct l as [| e l0].
    { pose proof (tree_depths_singleton _ H d eq_refl) as ->.
      exists 0, []. split; [done |]. split; [done |]. by repeat constructor. }
    destruct IH as (D & l' & Hp & Hd & Hall); [simpl; lia |].
    apply Forall_cons in Hall as [Hle Hall].
    destruct (decide (d = S D)) as [-> | Hne].
    + exists (S D), (e :: l0). split; [done |]. split; [done |].
      do 2 (apply Forall_cons; split; [lia |]).
      eapply Forall_impl; [done |]. simpl. lia.
    + assert (Hin : d ∈ l').
      { assert (Hin : d ∈ S D :: S D :: l') by (rewrite <- Hp; by left).
        rewrite !elem_of_cons in Hin. by destruct Hin as [? | [? | ?]]. }
      apply elem_of_Permutation in Hin as [l'' Hl''].
      rewrite Hl'' in Hp, Hd.
      assert (Hp' : e :: l0 ≡ₚ S D :: S D :: l'').
      { apply (inj (cons d)). rewrite Hp. solve_Permutation. }
      exists D, (S d :: S d :: l''). split; [| split].
      * rewrite Hp'. solve_Permutation.
      * apply (depths_perm _ (d :: D :: l'')) in Hd; [| solve_Permutation].
        apply depths_split in Hd.
        eapply depths_perm; [| done]. solve_Permutation.
      * do 2 (apply Forall_cons; split; [lia |]). done.
  - destruct IH as (D & l0 & Hp0 & Hd & Hall);
      [by rewrite (Permutation_length Hp) |].
    exists D, l0. split; [by rewrite <- Hp |]. split; [done |].
    by rewrite <- Hp.
Qed.

Lemma cost_cons w d l : cost ((w, d) :: l) = w * d + cost l.
Proof. done. Qed.

Lemma cost_app l k : cost (l ++ k) = cost l + cost k.
Proof. unfold cost. by rewrite fmap_app, sum_list_with_app. Qed.

#[local] Instance cost_Permutation : Proper ((≡ₚ) ==> (=)) cost.
Proof. intros l k Hp. unfold cost. by rewrite Hp. Qed.

(** A lightest weight is moved to a deepest place at no cost. *)
Lemma place_lightest a M (l : list (nat * nat)) R :
  l.*1 ≡ₚ a :: R → Forall (λ x, a ≤ x) R →
  Forall (λ d, d ≤ M) l.*2 → M ∈ l.*2 →
  ∃ l', l'.*1 ≡ₚ R ∧ M :: l'.*2 ≡ₚ l.*2 ∧ cost l' + a * M ≤ cost l.
Proof.
  intros Hw Hmin Hmax HM.
  apply list_elem_of_fmap in HM as ([p M'] & -> & Hp). cbn [snd] in *.
  apply elem_of_Permutation in Hp as [l0 Hl0].
  rewrite Hl0 in Hw, Hmax. cbn [fmap list_fmap fst snd] in Hw, Hmax.
  destruct (decide (p = a)) as [-> | Hne].
  - exists l0. rewrite Hl0. split; [by apply (inj (cons a)) |].
    split; [done |]. rewrite cost_cons. lia.
  - assert (Ha : a ∈ l0.*1).
    { assert (Ha : a ∈ p :: l0.*1) by (rewrite Hw; by left).
      apply elem_of_cons in Ha as [-> | Ha]; done. }
    apply list_elem_of_fmap in Ha as ([a' d] & -> & Ha). cbn [fst] in *.
    apply elem_of_Permutation in Ha as [l1 Hl1].
    rewrite Hl1 in Hw, Hmax, Hl0.
    cbn [fmap list_fmap fst snd] in Hw, Hmax.
    assert (HR : p :: l1.*1 ≡ₚ R).
    { apply (inj (cons a')). rewrite <- Hw. solve_Permutation. }
    exists ((p, d) :: l1). rewrite Hl0. split; [done |].
    split; [rewrite !fmap_cons; done |].
    assert (a' ≤ p).
    { rewrite Forall_forall in Hmin. apply Hmin. rewrite <- HR. by left. }
    assert (d ≤ M').
    { apply Forall_cons in Hmax as [_ Hmax].
      by apply Forall_cons in Hmax as [? _]. }
    rewrite !cost_cons. nia.
Qed.

(** The two lightest weights can be taken as the two children of one node:
    any placing of the weights at the leaves of a tree costs at least the sum
    of the two more than some placing with the two put together. *)
Lemma merge_lightest (l : list (nat * nat)) a b R :
  l.*1 ≡ₚ a :: b :: R → a ≤ b → Forall (λ x, b ≤ x) R →
  tree_depths l.*2 →
  ∃ l', l'.*1 ≡ₚ (a + b) :: R ∧ tree_depths l'.*2
        ∧ cost l' + a + b ≤ cost l.
Proof.
  intros Hw Hab Hmin Hd.
  destruct (tree_depths_deepest _ Hd) as (D & ds & Hp & Hds & Hall).
  { rewrite length_fmap, <- (length_fmap fst), Hw. simpl. lia. }
  destruct (place_lightest a (S D) l (b :: R)) as (l1 & Hw1 & Hd1 & Hc1).
  { done. }
  { apply Forall_cons. split; [done |].
    eapply Forall_impl; [done |]. simpl. lia. }
  { done. }
  { rewrite Hp. by left. }
  assert (Hp1 : l1.*2 ≡ₚ S D :: ds).
  { apply (inj (cons (S D))). by rewrite Hd1. }
  destruct (place_lightest b (S D) l1 R) as (l2 & Hw2 & Hd2 & Hc2).
  { done. }
  { done. }
  { rewrite <- Hd1 in Hall. by apply Forall_cons in Hall as [_ ?]. }
  { rewrite Hp1. by left. }
  assert (Hp2 : l2.*2 ≡ₚ ds).
  { apply (inj (cons (S D))). by rewrite Hd2. }
  exists ((a + b, D) :: l2). split; [| split].
  - rewrite fmap_cons. simpl. by rewrite Hw2.
  - rewrite fmap_cons. simpl. by rewrite Hp2.
  - rewrite cost_cons. lia.
Qed.

Lemma leaves_weights t : huffman_tree t → ∀ d,
  (leaves t d).*1 = (symbol_freqs t).*2.
Proof.
  induction 1 as [c f | l r Hl IHl Hr IHr]; intros d; [done |].
  simpl. by rewrite !fmap_app, IHl, IHr.
Qed.

Lemma leaves_shift t : huffman_tree t → ∀ d,
  cost (leaves t (S d)) = cost (leaves t d) + freq t.
Proof.
  induction 1 as [c f | l r Hl IHl Hr IHr]; intros d.
  - simpl. rewrite !cost_cons. simpl. unfold cost. simpl. lia.
  - simpl. rewrite !cost_app, IHl, IHr. lia.
Qed.

Lemma leaves_depths t : huffman_tree t → ∀ d l,
  tree_depths (d :: l) → tree_depths ((leaves t d).*2 ++ l).
Proof.
  induction 1 as [c f | l r Hl IHl Hr IHr]; intros d k Hd; [done |].
  simpl. rewrite fmap_app, <- app_assoc.
  apply depths_split, IHr in Hd.
  apply (depths_perm _ (S d :: (leaves r (S d)).*2 ++ k)) in Hd;
    [| solve_Permutation].
  apply IHl in Hd. eapply depths_perm; [| done]. solve_Permutation.
Qed.

(** The tree that is built costs no more than any placing of the
    frequencies at the leaves of a tree. *)
Lemma build_tree_least_cost freq_dict root (l0 : list (nat * nat)) :
  build_tree freq_dict = inr root →
  l0.*1 ≡ₚ freq_dict.*2 → tree_depths l0.*2 →
  cost (leaves root 0) ≤ cost l0.
Proof.
  intros E Hw Hd. unfold build_tree in E.
  destruct (build_heap_spec freq_dict) as (heap & Eh & Hh & Hp).
  rewrite Eh in E. revert E. result_simpl. intros E.
  destruct (build_huffman_tree_ind
    (λ F, Forall huffman_tree F
          ∧ ∃ l : list (nat * nat),
              l.*1 ≡ₚ freq <$> F ∧ tree_depths l.*2
              ∧ sum_list ((λ t, cost (leaves t 0)) <$> F) + cost l ≤ cost l0))
    with heap as (root' & Er & _ & l & _ & _ & Hc).
  - intros F F' HF (Ht & l & H1 & H2 & H3).
    split; [by rewrite <- HF |]. exists l. by rewrite <- HF.
  - intros x y F (Ht & l & H1 & H2 & H3) Hx Hy.
    apply Forall_cons in Ht as [Htx Ht]. apply Forall_cons in Ht as [Hty Ht].
    split; [apply Forall_cons; split; [by constructor | done] |].
    rewrite !fmap_cons in H1, H3. cbn [sum_list_with] in H3.
    destruct (merge_lightest l (freq x) (freq y) (freq <$> F))
      as (l' & H1' & H2' & H3'); [done | | | done |].
    { apply Hx. by left. }
    { apply Forall_fmap, Forall_forall. intros t Hin. by apply Hy. }
    exists l'. split; [done |]. split; [done |].
    rewrite fmap_cons. cbn [sum_list_with].
    change (leaves (merged x y) 0) with (leaves x 1 ++ leaves y 1).
    rewrite cost_app, !leaves_shift by done. unfold id in *. lia.
  - done.
  - intros ->. apply Permutation_nil in Hp.
    apply fmap_nil_inv in Hp. subst freq_dict.
    apply Permutation_nil_r, fmap_nil_inv in Hw. subst l0.
    simpl in Hd. clear -Hd. remember [] as l eqn:El.
    induction Hd as [| | l l' Hp _ IH]; [done | done |].
    subst l'. apply Permutation_nil_r in Hp. by apply IH.
  - split; [| exists l0; split; [| split]].
    + rewrite Hp. apply Forall_fmap, Forall_forall. intros e _. constructor.
    + rewrite Hw, Hp, <- list_fmap_compose. done.
    + done.
    + rewrite Hp, <- list_fmap_compose.
      replace (sum_list _) with 0; [done |].
      clear. induction freq_dict as [| e fd IH]; [done |].
      rewrite fmap_cons. cbn [sum_list_with]. rewrite <- IH.
      unfold id, compose, cost. simpl. lia.
  - rewrite E in Er. injection Er as <-. simpl in Hc.
    unfold id in Hc. lia.
Qed.

Lemma tree_depths_graft d l a :
  tree_depths (d :: l) → tree_depths a →
  tree_depths (((λ x, d + x) <$> a) ++ l).
Proof.
  intros Hd Ha. induction Ha as [| e a _ IH | a a' Hp _ IH].
  - simpl. by rewrite Nat.add_0_r.
  - rewrite !fmap_cons, Nat.add_succ_r. simpl.
    apply depths_split. by rewrite fmap_cons in IH.
  - by rewrite <- Hp.
Qed.

(** Two trees under a new root. *)
Lemma tree_depths_join a b :
  tree_depths a → tree_depths b → tree_depths ((S <$> a) ++ (S <$> b)).
Proof.
  intros Ha Hb.
  pose proof (depths_split 0 [] depths_root) as H1.
  pose proof (tree_depths_graft 1 [1] a H1 Ha) as H2.
  apply (depths_perm _ (1 :: ((λ x, 1 + x) <$> a))) in H2;
    [| solve_Permutation].
  pose proof (tree_depths_graft 1 _ b H2 Hb) as H3.
  eapply depths_perm; [| exact H3].
  change (λ x, 1 + x) with S. solve_Permutation.
Qed.

Lemma cost_below (l : list (nat * nat)) :
  cost (prod_map id S <$> l) = cost l + sum_list l.*1.
Proof.
  induction l as [| [w d] l IH]; [done |].
  change (cost (prod_map id S <$> (w, d) :: l))
    with (w * S d + cost (prod_map id S <$> l)).
  rewrite IH, cost_cons, fmap_cons. cbn [sum_list_with fst]. unfold id. lia.
Qed.

Lemma pairwise_app_l {A} (R : A → A → Prop) l k :
  pairwise R (l ++ k) → pairwise R l.
Proof.
  intros H. apply (pairwise_app_r R k l).
  eapply pairwise_Permutation; [| done]. solve_Permutation.
Qed.

Lemma pairwise_fmap_NoDup {A B} (R : B → B → Prop) (f : A → B) l :
  NoDup l → (∀ x y, x ∈ l → y ∈ l → x ≠ y → R (f x) (f y)) →
  pairwise R (f <$> l).
Proof.
  induction 1 as [| x l Hx Hnd IH]; intros HR; [done |].
  rewrite fmap_cons. split.
  - apply Forall_fmap, Forall_forall. intros y Hy.
    assert (x ≠ y) by (intros ->; done).
    split; apply HR; try done; by constructor.
  - apply IH. intros y z Hy Hz. apply HR; by right.
Qed.

(** With two codes or more, none is the empty string. *)
Lemma prefix_free_nonempty l :
  prefix_free l → 2 ≤ length l → Forall (λ e, e.2 ≠ []) l.
Proof.
  intros Hpf Hlen. apply Forall_forall. intros e He Hnil.
  apply elem_of_Permutation in He as [l' Hl'].
  apply (pairwise_Permutation _ _ _ Hl') in Hpf.
  destruct l' as [| e' l'].
  { rewrite Hl' in Hlen. simpl in Hlen. lia. }
  destruct Hpf as [Hpf _]. apply Forall_cons in Hpf as [[Hpf _] _].
  apply Hpf. rewrite Hnil. apply prefix_nil.
Qed.

(** The codes that begin with 0 and the codes that begin with 1. *)
Lemma split_by_first_bit (l : list (nat * str)) :
  Forall (λ e, e.2 ≠ []) l → Forall (λ e, Forall is_bit e.2) l →
  ∃ Z O, l ≡ₚ (prod_map id (cons "0") <$> Z) ++ (prod_map id (cons "1") <$> O).
Proof.
  induction l as [| [w code] l IH]; intros Hne Hbits.
  { by exists [], []. }
  apply Forall_cons in Hne as [Hne1 Hne]. apply Forall_cons in Hbits as [Hb1 Hbits].
  destruct (IH Hne Hbits) as (Z & O & Hp).
  destruct code as [| c t]; [done |]. simpl in Hb1.
  apply Forall_cons in Hb1 as [[-> | ->] _].
  - exists ((w, t) :: Z), O. rewrite fmap_cons. simpl. by rewrite Hp.
  - exists Z, ((w, t) :: O). rewrite fmap_cons, Hp.
    unfold prod_map at 3. simpl. unfold id. solve_Permutation.
Qed.

Section below_bit.
Context (b : ascii) (Z : list (nat * str)).

Lemma below_bit_weights : (prod_map id (cons b) <$> Z).*1 = Z.*1.
Proof. rewrite <- list_fmap_compose. by apply list_fmap_ext; intros ? []. Qed.

Lemma below_bit_length :
  sum_list ((λ e, length e.2) <$> (prod_map id (cons b) <$> Z))
  = sum_list ((λ e, length e.2) <$> Z) + length Z.
Proof.
  induction Z as [| [w t] l IH]; [done |].
  rewrite !fmap_cons. cbn [sum_list_with length]. rewrite IH.
  unfold id. simpl. lia.
Qed.

Lemma below_bit_cost :
  sum_list ((λ e, e.1 * length e.2) <$> (prod_map id (cons b) <$> Z))
  = sum_list ((λ e, e.1 * length e.2) <$> Z) + sum_list Z.*1.
Proof.
  induction Z as [| [w t] l IH]; [done |].
  rewrite !fmap_cons. cbn [sum_list_with]. rewrite IH.
  unfold id. simpl. lia.
Qed.

Lemma below_bit_bits :
  Forall (λ e, Forall is_bit e.2) (prod_map id (cons b) <$> Z) →
  Forall (λ e : nat * str, Forall is_bit e.2) Z.
Proof.
  rewrite Forall_fmap. intros H. eapply Forall_impl; [done |].
  intros [w t]. simpl. by intros [_ ?]%Forall_cons.
Qed.

Lemma below_bit_prefix_free :
  prefix_free (prod_map id (cons b) <$> Z) → prefix_free Z.
Proof.
  unfold prefix_free. induction Z as [| [w t] l IH]; [done |].
  rewrite fmap_cons. intros [H1 H2]. split; [| by apply IH].
  rewrite Forall_fmap in H1. eapply Forall_impl; [done |].
  intros [w' t']. simpl. intros [H3 H4].
  split; intros Hpre; [apply H3 | apply H4]; by apply prefix_cons.
Qed.

End below_bit.

(** Kraft's inequality, as trees: weights that carry codes of binary digits
    none of which is a prefix of another can be placed at the leaves of a
    tree, none deeper than its code is long. *)
Lemma prefix_free_depths n : ∀ l : list (nat * str),
  sum_list ((λ e, length e.2) <$> l) ≤ n → l ≠ [] →
  Forall (λ e, Forall is_bit e.2) l → prefix_free l →
  ∃ l' : list (nat * nat),
    l'.*1 ≡ₚ l.*1 ∧ tree_depths l'.*2
    ∧ cost l' ≤ sum_list ((λ e, e.1 * length e.2) <$> l).
Proof.
  induction n as [| n IH]; intros l Hn Hne Hbits Hpf.
  all: destruct l as [| e1 [| e2 l2]]; [done | |].
  1, 3: exists [(e1.1, 0)]; split; [done |]; split; [constructor |];
        unfold cost; simpl; lia.
  all: set (l := e1 :: e2 :: l2) in *.
  all: assert (Hlen : 2 ≤ length l) by (simpl; lia).
  all: pose proof (prefix_free_nonempty l Hpf Hlen) as Hnonempty.
  all: destruct (split_by_first_bit l Hnonempty Hbits) as (Z & O & Hp).
  all: clearbody l; clear e1 e2 l2.
  all: pose proof Hn as Hn'; rewrite Hp, fmap_app, sum_list_with_app,
         !below_bit_length in Hn'.
  all: pose proof (Permutation_length Hp) as Hlen';
         rewrite length_app, !length_fmap in Hlen'.
  { lia. }
  assert (HbZ : Forall (λ e : nat * str, Forall is_bit e.2) Z).
  { rewrite Hp in Hbits. apply Forall_app in Hbits as [H _].
    by apply below_bit_bits in H. }
  assert (HbO : Forall (λ e : nat * str, Forall is_bit e.2) O).
  { rewrite Hp in Hbits. apply Forall_app in Hbits as [_ H].
    by apply below_bit_bits in H. }
  apply (pairwise_Permutation _ _ _ Hp) in Hpf.
  assert (HpZ : prefix_free Z).
  { by apply pairwise_app_l, below_bit_prefix_free in Hpf. }
  assert (HpO : prefix_free O).
  { by apply pairwise_app_r, below_bit_prefix_free in Hpf. }
  assert (Hw : l.*1 ≡ₚ Z.*1 ++ O.*1).
  { by rewrite Hp, fmap_app, !below_bit_weights. }
  assert (Hc : sum_list ((λ e, e.1 * length e.2) <$> l)
    = sum_list ((λ e, e.1 * length e.2) <$> Z) + sum_list Z.*1
      + (sum_list ((λ e, e.1 * length e.2) <$> O) + sum_list O.*1)).
  { by rewrite Hp, fmap_app, sum_list_with_app, !below_bit_cost. }
  rewrite Hc. setoid_rewrite Hw. clear Hw Hc.
  destruct (decide (Z = [])) as [-> | HZ]; [| destruct (decide (O = [])) as [-> | HO]].
  - destruct (IH O) as (l' & H1 & H2 & H3); [lia | | done | done |].
    { intros ->. simpl in Hlen'. lia. }
    exists l'. split; [done |]. split; [done |]. simpl. lia.
  - destruct (IH Z) as (l' & H1 & H2 & H3); [lia | done | done | done |].
    exists l'. rewrite app_nil_r. split; [done |]. split; [done |].
    simpl. lia.
  - assert (1 ≤ length Z) by (destruct Z; [done | simpl; lia]).
    assert (1 ≤ length O) by (destruct O; [done | simpl; lia]).
    destruct (IH Z) as (lZ & HZ1 & HZ2 & HZ3); [lia | done | done | done |].
    destruct (IH O) as (lO & HO1 & HO2 & HO3); [lia | done | done | done |].
    exists ((prod_map id S <$> lZ) ++ (prod_map id S <$> lO)).
    split; [| split].
    + rewrite fmap_app, <- !list_fmap_compose.
      rewrite <- HZ1, <- HO1. done.
    + rewrite fmap_app, <- !list_fmap_compose.
      pose proof (tree_depths_join _ _ HZ2 HO2) as Hj.
      by rewrite <- !list_fmap_compose in Hj.
    + rewrite cost_app, !cost_below, HZ1, HO1. lia.
Qed.

Lemma code_list_cost (g : ascii → nat) t :
  huffman_tree t → (∀ c f, (c, f) ∈ symbol_freqs t → f = g c) →
  ∀ code,
    sum_list ((λ e, g e.1 * length e.2) <$> code_list t code)
    = cost (leaves t (length code)).
Proof.
  induction 1 as [c f | l r Hl IHl Hr IHr]; intros Hg code.
  - simpl. rewrite cost_cons. rewrite <- (Hg c f) by by left.
    unfold cost, id. simpl. lia.
  - simpl in *. rewrite fmap_app, sum_list_with_app, cost_app.
    rewrite IHl, IHr.
    + rewrite !length_app. simpl. by rewrite Nat.add_1_r.
    + intros c f Hc. apply Hg, elem_of_app. by right.
    + intros c f Hc. apply Hg, elem_of_app. by left.
Qed.

(** X17.  The encoded text of [compress] is as short as a prefix code
    allows: whatever codes of binary digits the characters of the text are
    given instead, none a prefix of the code of another character, the text
    encoded with them has at least as many digits. *)
Theorem compress_shortest self text set_text :
  set_iteration text set_text → text ≠ [] →
  ∃ self' byte_data,
    compress self text set_text = inr (self', byte_data)
    ∧ ∀ code : ascii → str,
        (∀ c, c ∈ text → Forall is_bit (code c)) →
        (∀ a b, a ∈ text → b ∈ text → a ≠ b → ¬ code a `prefix_of` code b) →
        length (text ≫= code_of self') ≤ length (text ≫= code).
Proof.
  intros Hset Hne. pose proof Hset as [Hnd Hchars].
  destruct (compress_uniform text set_text Hset Hne)
    as (root & data & Hbt & Ht & Hsym & Hnd' & Hin & Hcode & _ & E).
  exists (generate_codes_node self root []), data. split; [apply E |].
  intros code Hbits Hpf.
  set (self' := generate_codes_node self root []).
  set (l := (λ c, (count text c, code c)) <$> set_text).
  destruct (prefix_free_depths _ l (le_n _)) as (l0 & H1 & H2 & H3).
  { destruct text as [| c text']; [done |].
    assert (Hc : c ∈ set_text) by (apply Hchars; by left).
    unfold l. intros Hnil%fmap_nil_inv. rewrite Hnil in Hc.
    by apply elem_of_nil in Hc. }
  { apply Forall_fmap, Forall_forall. intros c Hc. by apply Hbits, Hchars. }
  { apply pairwise_fmap_NoDup; [done |]. intros a b Ha Hb Hab. simpl.
    apply Hpf; [by apply Hchars | by apply Hchars | done]. }
  assert (Hopt : cost (leaves root 0) ≤ cost l0).
  { apply (build_tree_least_cost _ root l0 Hbt); [| done].
    rewrite H1, frequency_dict_values. unfold l.
    by rewrite <- list_fmap_compose. }
  assert (Hmine : length (text ≫= code_of self') = cost (leaves root 0)).
  { rewrite length_bind.
    rewrite (sum_by_counts _ text set_text Hnd)
      by (intros c; apply Hchars).
    change (cost (leaves root 0)) with (cost (leaves root (length (@nil ascii)))).
    rewrite <- (code_list_cost (count text) root Ht).
    - assert (Hkeys : (code_list root []).*1 ≡ₚ set_text).
      { rewrite code_list_symbols by done.
        by rewrite Hsym, frequency_dict_keys. }
      rewrite <- Hkeys, <- list_fmap_compose. f_equal.
      apply Forall_fmap_ext, Forall_forall. intros [c cd] Hc. simpl.
      unfold self'. by rewrite (Hcode self c cd Hc).
    - intros c f Hc. rewrite Hsym in Hc.
      by apply elem_of_frequency_dict in Hc as [_ ->]. }
  assert (Htheirs : length (text ≫= code)
    = sum_list ((λ e, e.1 * length e.2) <$> l)).
  { rewrite length_bind.
    rewrite (sum_by_counts _ text set_text Hnd)
      by (intros c; apply Hchars).
    unfold l. by rewrite <- list_fmap_compose. }
  lia.
Qed.

Lemma compress_shortest_scenario :
  ∃ self' byte_data,
    compress FileCompression_init scenario_text scenario_set
      = inr (self', byte_data)
    ∧ ∀ code : ascii → str,
        (∀ c, c ∈ scenario_text → Forall is_bit (code c)) →
        (∀ a b, a ∈ scenario_text → b ∈ scenario_text → a ≠ b →
                ¬ code a `prefix_of` code b) →
        length (scenario_text ≫= code_of self')
        ≤ length (scenario_text ≫= code).
Proof.
  apply (compress_shortest FileCompression_init scenario_text scenario_set).
  - apply set_iteration_check; compute_done.
  - compute_done.
Defined.
